(** * RenormIsing: block-spin renormalisation of a 6-site periodic Ising chain

    A shallow embedding of [RenormIsing/Source.cpp] and the properties of its
    enumeration, coarse-graining, energy and aggregation stages.

    Conventions of the embedding:
    - a C++ [int] is a [Z] kept in the 32-bit two's complement range by
      [CInt.wrap] after every arithmetic operation;
    - a [std::vector<int>] is a [list Z]; a random-access iterator into it is
      its offset from [begin()], a [Z]; dereferencing outside the vector has
      no defined result and is [None];
    - a [std::map<int,int>] is the list of its (key, value) entries in the
      order an iteration from [begin()] to [end()] visits them;
    - an output stream is the [string] written to it so far. *)

From Stdlib Require Import ZArith Lia Ascii.
From stdpp Require Import base option list list_numbers sorting strings pretty.

Local Open Scope Z_scope.

(** ** Machine integers *)

Module CInt.

Definition int_min : Z := - 2 ^ 31.
Definition int_max : Z := 2 ^ 31 - 1.

(** Reduction of a mathematical integer to the 32-bit signed range. *)
Definition wrap (z : Z) : Z := (z + 2 ^ 31) mod 2 ^ 32 - 2 ^ 31.

Definition add (a b : Z) : Z := wrap (a + b).
Definition mul (a b : Z) : Z := wrap (a * b).

Definition in_range (z : Z) : Prop := int_min <= z <= int_max.

End CInt.

(** ** Vectors and iterators *)

Abbreviation vec := (list Z) (only parsing).

(** Dereferencing the iterator [v.begin() + k]. *)
Definition deref (v : vec) (k : Z) : option Z :=
  if k <? 0 then None else v !! Z.to_nat k.

(** [v.end() - v.begin()] *)
Definition vend (v : vec) : Z := Z.of_nat (length v).

(** ** The numeric kernels *)

(** [std::accumulate(first, last, init)]:
    while [first != last], add the element at [first] to [init] and advance
    [first]. *)
Fixpoint accumulate (fuel : nat) (v : vec) (first last : Z) (init : Z)
  : option Z :=
  match fuel with
  | O => None
  | S fuel' =>
      if negb (first =? last) then
        x ← deref v first;
        accumulate fuel' v (first + 1) last (CInt.add init x)
      else Some init
  end.

(** The loop of [std::accumulate] advances [first] until it meets [last]; from
    [first <= last] that takes [last - first] iterations and one final test. *)
Definition accumulate_fuel (first last : Z) : nat :=
  S (Z.to_nat (last - first)).

(** [template<typename It> int majority_rule(It first, It last)] *)
Definition majority_rule (v : vec) (first last : Z) : option Z :=
  s ← accumulate (accumulate_fuel first last) v first last 0;
  if s >? 0 then Some 1 else Some (-1).

(** The loop [for (It k = first; k<last - 1; ++k)] of [energy], whose body
    adds the product of the elements at [k] and [k + 1] to [s]; entered with
    iterator [k] and running sum [s]. *)
Fixpoint energy_loop (fuel : nat) (v : vec) (last : Z) (k : Z) (s : Z)
  : option Z :=
  match fuel with
  | O => None
  | S fuel' =>
      if k <? last - 1 then
        a ← deref v k;
        b ← deref v (k + 1);
        energy_loop fuel' v last (k + 1) (CInt.add s (CInt.mul a b))
      else Some s
  end.

(** The loop of [energy] advances [k] from [first] while it is before
    [last - 1]: at most [last - 1 - first] iterations and one final test. *)
Definition energy_fuel (first last : Z) : nat :=
  S (Z.to_nat (last - 1 - first)).

(** [template<typename It> int energy(It first, It last)] *)
Definition energy (v : vec) (first last : Z) : option Z :=
  s ← energy_loop (energy_fuel first last) v last first 0;
  a ← deref v (last - 1);
  b ← deref v first;
  Some (CInt.add s (CInt.mul a b)).

(** ** Output streams *)

Definition tab : string := String (Ascii.ascii_of_nat 9) EmptyString.
Definition endl : string := String (Ascii.ascii_of_nat 10) EmptyString.

(** [os << x] for an [int]: its decimal digits, with a leading minus sign for
    a negative value. *)
Definition show_int (x : Z) : string := pretty x.

(** [os << setw(w) << x]: the text of [x] right-justified in a field of [w]
    characters filled with blanks, or as it is when it is longer. *)
Definition setw (w : nat) (s : string) : string :=
  String.string_of_list_ascii (replicate (w - String.length s) " "%char) +:+ s.

(** ** The table of configurations *)

(** [class renorm_row] *)
Record renorm_row := mk_row {
  spin1 : vec;
  H1 : Z;
  spin2 : vec;
  H2 : Z
}.

(** [bitset<6> bits(mask)] keeps the six low bits of [mask]; [bits[j]] reads
    bit [j]. *)
Definition bitset6 (mask : Z) : Z := Z.land mask (Z.ones 6).

(** The inner loop [for (int i = 0; i<6; ++i)], which pushes
    [bits[5-i] ? 1 : -1] onto [spin1]. *)
Definition fill_spin1 (bits : Z) (sp : vec) : vec :=
  foldl (λ sp i, sp ++ [if Z.testbit bits (5 - i) then 1 else -1])
        sp (seqZ 0 6).

(** The body of the loop over [mask]: the row pushed onto [v] and the text it
    appends to [config_data]. *)
Definition row_of_mask (mask : Z) : option (renorm_row * string) :=
  let bits := bitset6 mask in
  let sp1 := fill_spin1 bits [] in
  h1 ← energy sp1 0 (vend sp1);
  m1 ← majority_rule sp1 0 (0 + 3);
  let sp2 := [] ++ [m1] in
  a0 ← deref sp1 0; a1 ← deref sp1 1; a2 ← deref sp1 2;
  let out := setw 3 (show_int a0) +:+ setw 3 (show_int a1)
             +:+ setw 3 (show_int a2) +:+ tab in
  b0 ← deref sp2 0;
  let out := out +:+ setw 3 (show_int b0) +:+ tab in
  m2 ← majority_rule sp1 (0 + 3) (vend sp1);
  let sp2 := sp2 ++ [m2] in
  h2 ← energy sp2 0 (vend sp2);
  a3 ← deref sp1 3; a4 ← deref sp1 4; a5 ← deref sp1 5;
  let out := out +:+ setw 3 (show_int a3) +:+ setw 3 (show_int a4)
             +:+ setw 3 (show_int a5) +:+ tab in
  b1 ← deref sp2 1;
  let out := out +:+ setw 3 (show_int b1) +:+ tab +:+ tab
             +:+ setw 3 (show_int h1) +:+ tab
             +:+ setw 3 (show_int h2) +:+ endl in
  Some (mk_row sp1 h1 sp2 h2, out).

(** The first line written to [config_data]. *)
Definition cfg_header : string :=
  "s1 s2 s3" +:+ tab +:+ " s1'" +:+ tab +:+ "s4 s5 s6" +:+ tab +:+ "s2'"
  +:+ tab +:+ tab +:+ "H" +:+ tab +:+ "  H'" +:+ endl.

(** The loop [for (int mask = 0; mask != (1 << 6); ++mask)], run over the
    successive values of [mask], from the vector [v] and the text
    [config_data] built so far. *)
Fixpoint enumerate (masks : list Z) (v : list renorm_row) (config_data : string)
  : option (list renorm_row * string) :=
  match masks with
  | [] => Some (v, config_data)
  | mask :: masks' =>
      '(r, out) ← row_of_mask mask;
      enumerate masks' (v ++ [r]) (config_data +:+ out)
  end.

Definition all_masks : list Z := seqZ 0 (Z.shiftl 1 6).

(** ** The grouped exponent tables *)

(** [std::map<int,int>]: the entries in iteration order. *)
Abbreviation int_map := (list (Z * Z)) (only parsing).

(** [++m[key]]: [operator[]] finds the entry of [key], or inserts one with
    the value [0] at the place the key order gives it; the value is then
    incremented. *)
Fixpoint map_incr (key : Z) (m : int_map) : int_map :=
  match m with
  | [] => [(key, CInt.add 0 1)]
  | (k, c) :: m' =>
      if key <? k then (key, CInt.add 0 1) :: (k, c) :: m'
      else if key =? k then (k, CInt.add c 1) :: m'
      else (k, c) :: map_incr key m'
  end.

(** [m.find(key)] as an option of the mapped value. *)
Fixpoint map_find (key : Z) (m : int_map) : option Z :=
  match m with
  | [] => None
  | (k, c) :: m' => if key =? k then Some c else map_find key m'
  end.

(** The loop [for (auto i = v.begin(); i != v.end(); ++i)] that counts the
    rows of each class by their [H1]. *)
Fixpoint count_terms (v : list renorm_row)
    (counts_primed_spins_equal counts_primed_spins_unequal : int_map)
  : option (int_map * int_map) :=
  match v with
  | [] => Some (counts_primed_spins_equal, counts_primed_spins_unequal)
  | i :: v' =>
      a ← deref (spin2 i) 0;
      b ← deref (spin2 i) 1;
      if a =? b then
        count_terms v' (map_incr (H1 i) counts_primed_spins_equal)
                    counts_primed_spins_unequal
      else
        count_terms v' counts_primed_spins_equal
                    (map_incr (H1 i) counts_primed_spins_unequal)
  end.

(** ** The summary equations *)

(** One term [ofs <<i->second <<" Exp[" << i->first << " k]"]. *)
Definition term (e : Z * Z) : string :=
  show_int e.2 +:+ " Exp[" +:+ show_int e.1 +:+ " k]".

(** The loop over the entries of one table, appending to [ofs]. *)
Fixpoint write_terms (first_iter : bool) (m : int_map) (ofs : string)
  : string :=
  match m with
  | [] => ofs
  | e :: m' =>
      if first_iter then write_terms false m' (ofs +:+ term e)
      else write_terms false m' ((ofs +:+ "+ ") +:+ term e)
  end.

Definition label_equal : string := "Exp[A(k)+2k'] = ".
Definition label_unequal : string := "Exp[A(k)-2k'] = ".

(** Everything written to [ofs]. *)
Definition write_equations (counts_primed_spins_equal
                            counts_primed_spins_unequal : int_map) : string :=
  let ofs := EmptyString +:+ label_equal in
  let ofs := write_terms true counts_primed_spins_equal ofs in
  let ofs := ofs +:+ endl in
  let ofs := ofs +:+ label_unequal in
  let ofs := write_terms true counts_primed_spins_unequal ofs in
  ofs +:+ endl.

(** ** The program *)

Record run := mk_run {
  rows : list renorm_row;
  cfg_out : string;
  counts_equal : int_map;
  counts_unequal : int_map;
  renorm_out : string
}.

(** [int main()]: the vector [v], both tables and the contents of the two
    files at [return 0]. *)
Definition main : option run :=
  '(v, config_data) ← enumerate all_masks [] (EmptyString +:+ cfg_header);
  '(ceq, cne) ← count_terms v [] [];
  Some (mk_run v config_data ceq cne (write_equations ceq cne)).

(** ** The spec's vocabulary *)

(** A spin is [+1] or [-1]. *)
Definition spin (s : Z) : Prop := s = 1 ∨ s = -1.

Definition sumZ (l : list Z) : Z := foldr Z.add 0 l.

(** Site [i] of a ring, sites numbered from 1. *)
Definition site (s : vec) (i : nat) : Z := nth (i - 1) s 0.

(** The energy of a ring as the spec writes it:
    E = Σ_{i=1}^{n} s_i · s_{(i mod n)+1}. *)
Definition ring_energy (s : vec) : Z :=
  let n := length s in
  sumZ ((λ i, site s i * site s (i mod n + 1)) <$> seq 1 n).

(** The sum of the products of neighbours inside a list, without the pair
    that closes the ring. *)
Fixpoint adj_sum (l : vec) : Z :=
  match l with
  | a :: t => a * hd 0 t + adj_sum t
  | [] => 0
  end.

(** The sum of the products of neighbours around the ring. *)
Definition ring_sum (l : vec) : Z := adj_sum l + List.last l 0 * hd 0 l.

(** The configuration the enumerator builds for [mask]: the [spin1] of its
    row. *)
Definition configuration (mask : Z) : vec := fill_spin1 (bitset6 mask) [].

(** The spec's re-encoding of a configuration, the inverse of the bit
    mapping: site s1 carries bit 5 and so on down to site s6, which carries
    bit 0; a site at +1 gives bit value 1 and a site at -1 bit value 0. *)
Definition encode (s : vec) : Z :=
  sumZ (imap (λ i x, if x =? 1 then Z.shiftl 1 (5 - Z.of_nat i) else 0) s).

(** The spin of a bit: bit value 1 is +1, bit value 0 is -1. *)
Definition spin_of_bit (b : bool) : Z := if b then 1 else -1.

(** What the row of [mask] holds, in terms of the kernels. *)
Definition row_ok (mask : Z) (r : renorm_row) : Prop :=
  spin1 r = configuration mask
  ∧ energy (spin1 r) 0 (vend (spin1 r)) = Some (H1 r)
  ∧ (∃ s1' s2', majority_rule (spin1 r) 0 3 = Some s1'
                ∧ majority_rule (spin1 r) 3 6 = Some s2'
                ∧ spin s1' ∧ spin s2'
                ∧ spin2 r = [s1'; s2'])
  ∧ energy (spin2 r) 0 (vend (spin2 r)) = Some (H2 r).

(** The two classes of rows: s1' = s2' and s1' != s2'. *)
Definition primed_equal (r : renorm_row) : Prop :=
  spin2 r !! 0%nat = spin2 r !! 1%nat.
Definition primed_unequal (r : renorm_row) : Prop :=
  spin2 r !! 0%nat ≠ spin2 r !! 1%nat.

#[global] Instance primed_equal_dec r : Decision (primed_equal r).
Proof. unfold primed_equal. apply _. Defined.
#[global] Instance primed_unequal_dec r : Decision (primed_unequal r).
Proof. unfold primed_unequal. apply _. Defined.

(** Keys of a table in iteration order, the count held for a key (0 when the
    key is absent) and the sum of all counts. *)
Definition keys (m : int_map) : list Z := m.*1.
Definition count_of (h : Z) (m : int_map) : Z := default 0 (map_find h m).
Definition total (m : int_map) : Z := sumZ m.*2.

(** The number of rows of [v] whose [H1] is [h]. *)
Definition rows_with_H1 (h : Z) (v : list renorm_row) : Z :=
  Z.of_nat (length (filter (λ r, H1 r = h) v)).

(** A table after [++m[h]] for each [h] of a list in turn. *)
Definition tally (hs : list Z) (m : int_map) : int_map :=
  foldl (λ m h, map_incr h m) m hs.

(** The number of occurrences of [h] in a list. *)
Definition occurrences (h : Z) (hs : list Z) : Z :=
  Z.of_nat (length (filter (λ x, x = h) hs)).

(** [m] is the table of the list [hs]: its keys ascend strictly, it holds
    exactly the values that occur in [hs], each with its number of
    occurrences, and its counts add up to the length of [hs]. *)
Definition table_of (hs : list Z) (m : int_map) : Prop :=
  StronglySorted Z.lt (keys m)
  ∧ (∀ h, map_find h m
          = if occurrences h hs =? 0 then None else Some (occurrences h hs))
  ∧ total m = Z.of_nat (length hs).

(** Keys in strictly ascending order. *)
Definition ascending (ks : list Z) : Prop := StronglySorted Z.lt ks.

(** An even integer from -6 to 6. *)
Definition even_within_6 (h : Z) : Prop := Z.even h = true ∧ -6 ≤ h ≤ 6.

(** The numbers of [+1] and of [-1] in a list. *)
Definition ups (l : vec) : Z := Z.of_nat (length (filter (λ x, x = 1) l)).
Definition downs (l : vec) : Z := Z.of_nat (length (filter (λ x, x = -1) l)).

(** The line of the raw table that shows a row: the columns s1 s2 s3, s1',
    s4 s5 s6, s2', H1 and H2, each number in a field of three characters. *)
Definition row_line (r : renorm_row) : string :=
  setw 3 (show_int (nth 0 (spin1 r) 0)) +:+ setw 3 (show_int (nth 1 (spin1 r) 0))
  +:+ setw 3 (show_int (nth 2 (spin1 r) 0)) +:+ tab
  +:+ setw 3 (show_int (nth 0 (spin2 r) 0)) +:+ tab
  +:+ setw 3 (show_int (nth 3 (spin1 r) 0)) +:+ setw 3 (show_int (nth 4 (spin1 r) 0))
  +:+ setw 3 (show_int (nth 5 (spin1 r) 0)) +:+ tab
  +:+ setw 3 (show_int (nth 1 (spin2 r) 0)) +:+ tab +:+ tab
  +:+ setw 3 (show_int (H1 r)) +:+ tab
  +:+ setw 3 (show_int (H2 r)) +:+ endl.

(** The texts of a list, one after the other. *)
Definition concat_lines (ls : list string) : string :=
  foldr String.append EmptyString ls.

(** A row with every spin reversed and the same energies. *)
Definition flip_row (r : renorm_row) : renorm_row :=
  mk_row (Z.opp <$> spin1 r) (H1 r) (Z.opp <$> spin2 r) (H2 r).

(** * Properties *)

Example energy_alternating :
  energy [1; -1; 1; -1; 1; -1] 0 6 = Some (-6).
Proof. reflexivity. Qed.

Example energy_pair : energy [1; -1] 0 2 = Some (-2).
Proof. reflexivity. Qed.

Example majority_rule_ex : majority_rule [1; -1; 1; -1; 1; -1] 3 6 = Some (-1).
Proof. reflexivity. Qed.

(** ** Machine integers *)

Module CIntFacts.
Import CInt.

Lemma wrap_small z : in_range z → wrap z = z.
Proof.
  unfold in_range, int_min, int_max, wrap. intros H.
  rewrite Z.mod_small; lia.
Qed.

Lemma wrap_in_range z : in_range (wrap z).
Proof.
  unfold in_range, int_min, int_max, wrap.
  pose proof (Z.mod_pos_bound (z + 2 ^ 31) (2 ^ 32)). lia.
Qed.

Lemma wrap_eqm a b : (a - b) mod 2 ^ 32 = 0 → wrap a = wrap b.
Proof.
  unfold wrap. intros H. f_equal.
  replace (a + 2 ^ 31) with ((b + 2 ^ 31) + (a - b)) by lia.
  rewrite Z.add_mod, H, Z.add_0_r, Z.mod_mod; lia.
Qed.

Lemma wrap_diff z : (wrap z - z) mod 2 ^ 32 = 0.
Proof.
  unfold wrap.
  rewrite (Z.mod_eq (z + 2 ^ 31) (2 ^ 32)) by lia.
  replace (z + 2 ^ 31 - 2 ^ 32 * ((z + 2 ^ 31) / 2 ^ 32) - 2 ^ 31 - z)
    with (- ((z + 2 ^ 31) / 2 ^ 32) * 2 ^ 32) by lia.
  apply Z.mod_mul. lia.
Qed.

Lemma wrap_add_l a b : wrap (wrap a + b) = wrap (a + b).
Proof.
  apply wrap_eqm. replace (wrap a + b - (a + b)) with (wrap a - a) by lia.
  apply wrap_diff.
Qed.

Lemma wrap_add_r a b : wrap (a + wrap b) = wrap (a + b).
Proof. rewrite (Z.add_comm a), wrap_add_l. f_equal. lia. Qed.

Lemma wrap_wrap a : wrap (wrap a) = wrap a.
Proof. apply wrap_small, wrap_in_range. Qed.

Lemma add_wrap_l s x : add (wrap s) x = wrap (s + x).
Proof. apply wrap_add_l. Qed.

Lemma add_mul_wrap s a b : add (wrap s) (mul a b) = wrap (s + a * b).
Proof. unfold add, mul. by rewrite wrap_add_l, wrap_add_r. Qed.

End CIntFacts.

(** ** Iterators *)

Lemma deref_of_nat (v : vec) (i : nat) : deref v (Z.of_nat i) = v !! i.
Proof.
  unfold deref. destruct (Z.ltb_spec (Z.of_nat i) 0); [lia|].
  by rewrite Nat2Z.id.
Qed.

Lemma deref_app_r (pre l : vec) :
  deref (pre ++ l) (vend pre) = head l.
Proof.
  unfold vend. rewrite deref_of_nat.
  rewrite lookup_app_r by lia. rewrite Nat.sub_diag. by destruct l.
Qed.

Lemma vend_snoc (pre : vec) a : vend (pre ++ [a]) = vend pre + 1.
Proof. unfold vend. rewrite length_app. simpl. lia. Qed.

Lemma vend_app (l1 l2 : vec) : vend (l1 ++ l2) = vend l1 + vend l2.
Proof. unfold vend. rewrite length_app. lia. Qed.

(** ** [std::accumulate] and [majority_rule] *)

Section Kernels.
Import CInt CIntFacts.

Lemma foldl_add_wrap (l : vec) init :
  foldl add (wrap init) l = wrap (init + sumZ l).
Proof.
  revert init. induction l as [|a l IH]; intros init; simpl.
  - f_equal. lia.
  - rewrite add_wrap_l, IH. f_equal. lia.
Qed.

(** On a range that lies inside the vector the loop ends, having added the
    elements of the range from left to right. *)
Lemma accumulate_range (pre l post : vec) fuel init :
  (length l < fuel)%nat →
  accumulate fuel (pre ++ l ++ post) (vend pre) (vend pre + vend l) init
  = Some (foldl add init l).
Proof.
  revert pre fuel init.
  induction l as [|a l IH]; intros pre fuel init Hf;
    (destruct fuel as [|fuel]; [simpl in Hf; lia|]); simpl.
  - replace (vend pre + vend []) with (vend pre) by (unfold vend; simpl; lia).
    by rewrite Z.eqb_refl.
  - destruct (Z.eqb_spec (vend pre) (vend pre + vend (a :: l))) as [E|_].
    { unfold vend in E. simpl in E. lia. }
    simpl. rewrite deref_app_r. simpl.
    replace (vend pre + 1) with (vend (pre ++ [a])) by apply vend_snoc.
    replace (vend pre + vend (a :: l)) with (vend (pre ++ [a]) + vend l)
      by (rewrite vend_snoc; unfold vend; simpl; lia).
    replace (pre ++ a :: l ++ post) with ((pre ++ [a]) ++ l ++ post)
      by (by rewrite <- app_assoc).
    apply IH. simpl in Hf. lia.
Qed.

Lemma majority_rule_range (pre l post : vec) :
  majority_rule (pre ++ l ++ post) (vend pre) (vend pre + vend l)
  = Some (if wrap (sumZ l) >? 0 then 1 else -1).
Proof.
  unfold majority_rule, accumulate_fuel.
  rewrite accumulate_range.
  - pose proof (foldl_add_wrap l 0) as F.
    change (wrap 0) with 0 in F. rewrite F, Z.add_0_l. simpl.
    by destruct (wrap (sumZ l) >? 0).
  - unfold vend. replace (Z.of_nat (length pre) + Z.of_nat (length l)
                          - Z.of_nat (length pre)) with (Z.of_nat (length l))
      by lia.
    rewrite Nat2Z.id. lia.
Qed.

Lemma majority_rule_spin (pre l post : vec) :
  ∃ m, majority_rule (pre ++ l ++ post) (vend pre) (vend pre + vend l)
       = Some m ∧ spin m.
Proof.
  rewrite majority_rule_range.
  destruct (wrap (sumZ l) >? 0); eexists; (split; [done|]);
    unfold spin; lia.
Qed.

(** ** [energy] *)

Lemma energy_loop_range (pre l post : vec) fuel s :
  (length l ≤ fuel)%nat → (1 ≤ fuel)%nat →
  energy_loop fuel (pre ++ l ++ post) (vend pre + vend l) (vend pre) (wrap s)
  = Some (wrap (s + adj_sum l)).
Proof.
  revert pre fuel s.
  induction l as [|a l IH]; intros pre fuel s Hf H1;
    (destruct fuel as [|fuel]; [lia|]); cbn [energy_loop].
  - destruct (Z.ltb_spec (vend pre) (vend pre + vend [] - 1)) as [E|_].
    { unfold vend in E. simpl in E. lia. }
    do 2 f_equal. simpl. lia.
  - destruct l as [|b l].
    + destruct (Z.ltb_spec (vend pre) (vend pre + vend [a] - 1)) as [E|_].
      { unfold vend in E. simpl in E. lia. }
      do 2 f_equal. simpl. lia.
    + destruct (Z.ltb_spec (vend pre) (vend pre + vend (a :: b :: l) - 1))
        as [_|E].
      2:{ unfold vend in E. simpl in E. lia. }
      rewrite deref_app_r. cbn [app head mbind option_bind].
      replace (vend pre + 1) with (vend (pre ++ [a])) by apply vend_snoc.
      replace (pre ++ a :: b :: l ++ post)
        with ((pre ++ [a]) ++ (b :: l) ++ post)
        by (by rewrite <- app_assoc).
      rewrite deref_app_r. cbn [app head mbind option_bind].
      rewrite add_mul_wrap.
      replace (vend pre + vend (a :: b :: l))
        with (vend (pre ++ [a]) + vend (b :: l))
        by (rewrite vend_snoc; unfold vend; simpl; lia).
      rewrite IH by (simpl in *; lia).
      do 2 f_equal. simpl. lia.
Qed.

Lemma deref_last (pre l post : vec) :
  l ≠ [] →
  deref (pre ++ l ++ post) (vend pre + vend l - 1) = Some (List.last l 0).
Proof.
  intros Hl. destruct (exists_last Hl) as (t & a & ->).
  rewrite vend_snoc, last_last.
  replace (vend pre + (vend t + 1) - 1) with (vend (pre ++ t))
    by (rewrite vend_app; lia).
  replace (pre ++ (t ++ [a]) ++ post) with ((pre ++ t) ++ [a] ++ post)
    by (by rewrite <- !app_assoc).
  by rewrite deref_app_r.
Qed.

(** What the code computes on a non-empty range [l] that lies inside the
    vector, between the elements [pre] before it and [post] after it: the sum
    around the ring [l], reduced to the range of [int]. *)
Lemma energy_range (pre l post : vec) :
  l ≠ [] →
  energy (pre ++ l ++ post) (vend pre) (vend pre + vend l)
  = Some (wrap (ring_sum l)).
Proof.
  intros Hl. unfold energy, energy_fuel.
  pose proof (energy_loop_range pre l post
                (S (Z.to_nat (vend pre + vend l - 1 - vend pre))) 0) as L.
  change (wrap 0) with 0 in L.
  rewrite L by (unfold vend; lia). clear L. cbn [mbind option_bind].
  rewrite deref_last by done. cbn [mbind option_bind].
  rewrite deref_app_r.
  destruct l as [|a l]; [done|]. cbn [app head mbind option_bind].
  rewrite add_mul_wrap. reflexivity.
Qed.

(** The same on a whole vector, from [begin()] to [end()]. *)
Lemma energy_ring_sum (v : vec) :
  v ≠ [] → energy v 0 (vend v) = Some (wrap (ring_sum v)).
Proof.
  intros Hv. pose proof (energy_range [] v [] Hv) as E.
  by rewrite app_nil_r in E.
Qed.

End Kernels.

(** ** The sum around a ring *)

Section Ring.

Lemma adj_sum_app (l1 l2 : vec) :
  adj_sum (l1 ++ l2) = adj_sum l1 + List.last l1 0 * hd 0 l2 + adj_sum l2.
Proof.
  induction l1 as [|a [|b t] IH].
  - simpl. lia.
  - simpl. lia.
  - change (adj_sum ((a :: b :: t) ++ l2))
      with (a * b + adj_sum ((b :: t) ++ l2)).
    rewrite IH.
    change (adj_sum (a :: b :: t)) with (a * b + adj_sum (b :: t)).
    change (List.last (a :: b :: t) 0) with (List.last (b :: t) 0). lia.
Qed.

Lemma hd_app_ne (l1 l2 : vec) : l1 ≠ [] → hd 0 (l1 ++ l2) = hd 0 l1.
Proof. by destruct l1. Qed.

Lemma last_app_ne (l1 l2 : vec) :
  l2 ≠ [] → List.last (l1 ++ l2) 0 = List.last l2 0.
Proof.
  intros H. destruct (exists_last H) as (t & a & ->).
  by rewrite app_assoc, !last_last.
Qed.

Lemma ring_sum_swap (l1 l2 : vec) : ring_sum (l2 ++ l1) = ring_sum (l1 ++ l2).
Proof.
  destruct l1 as [|a1 t1]; [by rewrite app_nil_r|].
  destruct l2 as [|a2 t2]; [by rewrite app_nil_r|].
  unfold ring_sum. rewrite !adj_sum_app.
  rewrite !hd_app_ne, !last_app_ne by done. lia.
Qed.

Lemma ring_sum_rotate (k : nat) (l : vec) : ring_sum (rotate k l) = ring_sum l.
Proof.
  unfold rotate. rewrite ring_sum_swap. by rewrite take_drop.
Qed.

Lemma hd_snoc (l : vec) a : hd 0 (l ++ [a]) = hd a l.
Proof. by destruct l. Qed.

Lemma adj_sum_snoc (l : vec) a :
  adj_sum (l ++ [a]) = adj_sum l + List.last l 0 * a.
Proof. rewrite adj_sum_app. simpl. lia. Qed.

Lemma last_reverse (l : vec) : List.last (reverse l) 0 = hd 0 l.
Proof. destruct l as [|a l]; [done|]. by rewrite reverse_cons, last_last. Qed.

Lemma hd_reverse (l : vec) : hd 0 (reverse l) = List.last l 0.
Proof.
  destruct (decide (l = [])) as [->|H]; [done|].
  destruct (exists_last H) as (t & a & ->).
  by rewrite reverse_snoc, last_last.
Qed.

Lemma adj_sum_reverse (l : vec) : adj_sum (reverse l) = adj_sum l.
Proof.
  induction l as [|a l IH]; [done|].
  rewrite reverse_cons, adj_sum_snoc, IH, last_reverse. simpl. lia.
Qed.

Lemma ring_sum_reverse (l : vec) : ring_sum (reverse l) = ring_sum l.
Proof.
  unfold ring_sum. rewrite adj_sum_reverse, last_reverse, hd_reverse. lia.
Qed.

(** The products of neighbours, taken by position. *)
Lemma adj_sum_nth (l : vec) :
  sumZ ((λ i, nth i l 0 * nth (S i) l 0) <$> seq 0 (length l - 1))
  = adj_sum l.
Proof.
  induction l as [|a [|b t] IH]; [done|simpl; lia|].
  replace (length (a :: b :: t) - 1)%nat with (S (length (b :: t) - 1))
    by (simpl; lia).
  rewrite <- cons_seq, <- fmap_S_seq. rewrite fmap_cons.
  rewrite <- list_fmap_compose.
  change (adj_sum (a :: b :: t)) with (a * b + adj_sum (b :: t)).
  rewrite <- IH. reflexivity.
Qed.

Lemma nth_last (l : vec) : nth (length l - 1) l 0 = List.last l 0.
Proof.
  destruct (decide (l = [])) as [->|H]; [done|].
  destruct (exists_last H) as (t & a & ->).
  rewrite last_last, length_app. simpl.
  replace (length t + 1 - 1)%nat with (length t) by lia.
  by rewrite nth_middle.
Qed.

(** The spec's formula, with sites counted from 1 and the successor of
    site n being site 1, is the sum around the ring. *)
Lemma ring_energy_ring_sum (s : vec) : ring_energy s = ring_sum s.
Proof.
  unfold ring_energy, ring_sum.
  destruct (decide (s = [])) as [->|H]; [done|].
  assert (length s ≠ 0%nat) as Hn by (by destruct s).
  replace (length s) with (length s - 1 + 1)%nat at 1 by lia.
  rewrite seq_app, fmap_app. simpl.
  replace (1 + (length s - 1))%nat with (length s) by lia.
  unfold sumZ. rewrite foldr_app. simpl.
  fold sumZ.
  assert (∀ l acc, foldr Z.add acc l = sumZ l + acc) as Hacc.
  { induction l as [|x l IHl]; intros acc; simpl; [lia|]. rewrite IHl. lia. }
  rewrite Hacc. f_equal.
  - rewrite <- adj_sum_nth. f_equal.
    rewrite <- fmap_S_seq, <- list_fmap_compose.
    apply list_fmap_ext. intros i x Hi. simpl.
    apply lookup_seq in Hi as [-> Hi]. unfold site.
    rewrite Nat.mod_small by lia.
    f_equal; f_equal; lia.
  - unfold site.
    replace (S (length s - 1)) with (length s) by lia.
    rewrite Nat.Div0.mod_same, nth_last.
    destruct s; [done|]. simpl. lia.
Qed.

End Ring.

(** ** Rings of spins *)

Section Spins.
Import CInt CIntFacts.

Lemma spin_mul a b : spin a → spin b → spin (a * b).
Proof. unfold spin. lia. Qed.

Lemma spin_hd (l : vec) : Forall spin l → l ≠ [] → spin (hd 0 l).
Proof. intros Hl Hne. destruct l; [done|]. by inversion Hl. Qed.

Lemma spin_last (l : vec) : Forall spin l → l ≠ [] → spin (List.last l 0).
Proof.
  intros Hl Hne. destruct (exists_last Hne) as (t & a & ->).
  rewrite last_last. apply Forall_app in Hl as [_ Ha]. by inversion Ha.
Qed.

(** Inside a list of spins every pair of neighbours contributes [+1] or
    [-1]; [w] counts the pairs that disagree. *)
Lemma adj_sum_spin (l : vec) :
  Forall spin l →
  ∃ w, 0 ≤ w ≤ Z.of_nat (length l - 1)
       ∧ adj_sum l = Z.of_nat (length l - 1) - 2 * w.
Proof.
  induction l as [|a [|b t] IH]; intros Hl.
  - exists 0. simpl. lia.
  - exists 0. simpl. lia.
  - inversion Hl as [|? ? Ha Ht]; subst.
    destruct (IH Ht) as (w & Hw & E).
    assert (spin b) as Hb by (by inversion Ht).
    change (adj_sum (a :: b :: t)) with (a * b + adj_sum (b :: t)).
    rewrite E. simpl length in *.
    destruct (spin_mul a b Ha Hb) as [P|P]; rewrite P.
    + exists w. lia.
    + exists (w + 1). lia.
Qed.

Lemma ring_sum_spin (l : vec) :
  Forall spin l → l ≠ [] →
  ∃ w, 0 ≤ w ≤ vend l ∧ ring_sum l = vend l - 2 * w.
Proof.
  intros Hl Hne. destruct (adj_sum_spin l Hl) as (w & Hw & E).
  assert (length l ≠ 0%nat) by (by destruct l).
  unfold ring_sum, vend. rewrite E.
  destruct (spin_mul _ _ (spin_last l Hl Hne) (spin_hd l Hl Hne)) as [P|P];
    rewrite P.
  - exists w. lia.
  - exists (w + 1). lia.
Qed.

Lemma ring_sum_in_range (l : vec) :
  Forall spin l → l ≠ [] → vend l ≤ int_max → in_range (ring_sum l).
Proof.
  intros Hl Hne Hmax. destruct (ring_sum_spin l Hl Hne) as (w & Hw & ->).
  unfold in_range, int_min, int_max in *. lia.
Qed.

(** Whatever the elements, the code returns the spec's sum reduced to the
    range of [int]. *)
Lemma energy_ring_energy_wrap (pre l post : vec) :
  l ≠ [] →
  energy (pre ++ l ++ post) (vend pre) (vend pre + vend l)
  = Some (wrap (ring_energy l)).
Proof. intros. rewrite ring_energy_ring_sum. by apply energy_range. Qed.

Lemma energy_range_reverse (pre l post : vec) :
  energy (pre ++ reverse l ++ post) (vend pre) (vend pre + vend l)
  = energy (pre ++ l ++ post) (vend pre) (vend pre + vend l).
Proof.
  destruct (decide (l = [])) as [->|Hl]; [by rewrite reverse_nil|].
  assert (reverse l ≠ []) as Hr.
  { intros E. apply (f_equal length) in E. rewrite length_reverse in E.
    by destruct l. }
  pose proof (energy_range pre (reverse l) post Hr) as E.
  replace (vend (reverse l)) with (vend l) in E
    by (unfold vend; by rewrite length_reverse).
  by rewrite E, energy_range, ring_sum_reverse.
Qed.

Lemma energy_range_rotate (k : nat) (pre l post : vec) :
  energy (pre ++ rotate k l ++ post) (vend pre) (vend pre + vend l)
  = energy (pre ++ l ++ post) (vend pre) (vend pre + vend l).
Proof.
  destruct (decide (l = [])) as [->|Hl];
    [by unfold rotate; rewrite drop_nil, take_nil|].
  assert (rotate k l ≠ []) as Hr.
  { intros E. apply (f_equal length) in E. rewrite length_rotate in E.
    by destruct l. }
  pose proof (energy_range pre (rotate k l) post Hr) as E.
  replace (vend (rotate k l)) with (vend l) in E
    by (unfold vend; by rewrite length_rotate).
  by rewrite E, energy_range, ring_sum_rotate.
Qed.

End Spins.

(** ** The energy functional *)

(** In the statements below the ring is a range of iterators [first, last)
    into a vector: the elements [s] of the ring, after the elements [pre] of
    the vector that come before [first] and before the elements [post] that
    come from [last] on. With [pre] and [post] empty the range runs from
    [begin()] to [end()], as in both calls of the program. *)

(** C1. On a ring of n >= 2 spins, each +1 or -1, [energy] returns the
    integer sum over the sites i = 1..n of s_i * s_((i mod n)+1): the
    products of all adjacent pairs, the pair of the last with the first
    element included. The number of sites is within the range of [int], as
    the result, which reaches n on an aligned ring, is an [int]. *)
Theorem energy_is_ring_energy (pre s post : vec) :
  Forall spin s → (2 ≤ length s)%nat → vend s ≤ CInt.int_max →
  energy (pre ++ s ++ post) (vend pre) (vend pre + vend s)
  = Some (ring_energy s).
Proof.
  intros Hs Hn Hmax.
  assert (s ≠ []) as Hne by (destruct s; [simpl in Hn; lia|done]).
  rewrite energy_range by done.
  rewrite ring_energy_ring_sum.
  f_equal. apply CIntFacts.wrap_small. by apply ring_sum_in_range.
Qed.

Lemma energy_is_ring_energy_witness :
  Forall spin [1; -1; -1; 1; 1] ∧ (2 ≤ length [1; -1; -1; 1; 1]%Z)%nat
  ∧ vend [1; -1; -1; 1; 1] ≤ CInt.int_max
  ∧ energy [1; -1; -1; 1; 1] 0 5 = Some (ring_energy [1; -1; -1; 1; 1])
  ∧ ring_energy [1; -1; -1; 1; 1] = 1.
Proof.
  assert (Forall spin [1; -1; -1; 1; 1]) as H1
    by (repeat constructor; unfold spin; lia).
  assert (2 ≤ length [1; -1; -1; 1; 1]%Z)%nat as H2 by (simpl; lia).
  assert (vend [1; -1; -1; 1; 1] ≤ CInt.int_max) as H3
    by (vm_compute; discriminate).
  exact (conj H1 (conj H2 (conj H3
           (conj (energy_is_ring_energy [] [1; -1; -1; 1; 1] [] H1 H2 H3)
                 eq_refl)))).
Defined.

(** C7. The energy of a ring of n >= 2 spins does not change when the order
    of the elements is reversed, nor when the ring is rotated by any number
    [k] of places; the energy is a value in each case. *)
Theorem energy_reverse_rotate_invariant (pre s post : vec) (k : nat) :
  Forall spin s → (2 ≤ length s)%nat →
  is_Some (energy (pre ++ s ++ post) (vend pre) (vend pre + vend s))
  ∧ energy (pre ++ reverse s ++ post) (vend pre) (vend pre + vend s)
    = energy (pre ++ s ++ post) (vend pre) (vend pre + vend s)
  ∧ energy (pre ++ rotate k s ++ post) (vend pre) (vend pre + vend s)
    = energy (pre ++ s ++ post) (vend pre) (vend pre + vend s).
Proof.
  intros _ Hn.
  assert (s ≠ []) as Hne by (destruct s; [simpl in Hn; lia|done]).
  split_and!.
  - by rewrite energy_range.
  - apply energy_range_reverse.
  - apply energy_range_rotate.
Qed.

Lemma energy_reverse_rotate_invariant_witness :
  Forall spin [1; 1; -1; 1] ∧ (2 ≤ length [1; 1; -1; 1]%Z)%nat
  ∧ energy [1; -1; 1; 1] 0 4 = energy [1; 1; -1; 1] 0 4
  ∧ energy [1; 1; 1; -1] 0 4 = energy [1; 1; -1; 1] 0 4.
Proof.
  assert (Forall spin [1; 1; -1; 1]) as H1
    by (repeat constructor; unfold spin; lia).
  assert (2 ≤ length [1; 1; -1; 1]%Z)%nat as H2 by (simpl; lia).
  pose proof (energy_reverse_rotate_invariant [] [1; 1; -1; 1] [] 3 H1 H2)
    as (_ & Hrev & Hrot).
  exact (conj H1 (conj H2 (conj Hrev Hrot))).
Defined.

(** C9. On a range of a single spin the loop over adjacent pairs runs zero
    times, leaving the sum at 0, and [energy] returns the square of the
    spin, which is 1. *)
Theorem energy_single_spin (pre post : vec) (s : Z) :
  spin s →
  energy_loop (energy_fuel (vend pre) (vend pre + 1)) (pre ++ [s] ++ post)
              (vend pre + 1) (vend pre) 0 = Some 0
  ∧ energy (pre ++ [s] ++ post) (vend pre) (vend pre + 1) = Some (s * s)
  ∧ energy (pre ++ [s] ++ post) (vend pre) (vend pre + 1) = Some 1.
Proof.
  intros Hs. split_and!.
  - unfold energy_fuel. cbn [energy_loop].
    destruct (Z.ltb_spec (vend pre) (vend pre + 1 - 1)); [lia|done].
  - pose proof (energy_range pre [s] post) as E.
    change (vend [s]) with 1 in E. rewrite E by done.
    destruct Hs as [-> | ->]; reflexivity.
  - pose proof (energy_range pre [s] post) as E.
    change (vend [s]) with 1 in E. rewrite E by done.
    destruct Hs as [-> | ->]; reflexivity.
Qed.

Lemma energy_single_spin_witness :
  spin (-1) ∧ energy [-1] 0 1 = Some 1.
Proof.
  assert (spin (-1)) as H by (unfold spin; lia).
  exact (conj H (proj2 (proj2 (energy_single_spin [] [] (-1) H)))).
Defined.

(** ** The majority rule *)

(** C10. On an empty range, wherever it sits, [majority_rule] returns -1: the
    accumulated sum is 0 and the test [s>0] fails. *)
Theorem majority_rule_empty (v : vec) (k : Z) :
  accumulate (accumulate_fuel k k) v k k 0 = Some 0
  ∧ majority_rule v k k = Some (-1).
Proof.
  unfold majority_rule, accumulate_fuel. simpl.
  rewrite Z.eqb_refl. simpl. done.
Qed.

(** C2. On a range of three values, each +1 or -1, [majority_rule] returns
    +1 when their sum is strictly positive and -1 otherwise, so always +1 or
    -1; in particular it maps (+1,+1,+1) to +1, (-1,-1,-1) to -1, (+1,+1,-1)
    to +1 and (-1,-1,+1) to -1. The range lies in a vector after the
    elements [pre] and before the elements [post]. *)
Theorem majority_rule_three (pre post : vec) (a b c : Z) :
  spin a → spin b → spin c →
  majority_rule (pre ++ [a; b; c] ++ post) (vend pre) (vend pre + 3)
  = Some (if a + b + c >? 0 then 1 else -1)
  ∧ (majority_rule (pre ++ [a; b; c] ++ post) (vend pre) (vend pre + 3)
     = Some 1
     ∨ majority_rule (pre ++ [a; b; c] ++ post) (vend pre) (vend pre + 3)
       = Some (-1))
  ∧ majority_rule [1; 1; 1] 0 3 = Some 1
  ∧ majority_rule [-1; -1; -1] 0 3 = Some (-1)
  ∧ majority_rule [1; 1; -1] 0 3 = Some 1
  ∧ majority_rule [-1; -1; 1] 0 3 = Some (-1).
Proof.
  intros Ha Hb Hc.
  pose proof (majority_rule_range pre [a; b; c] post) as E.
  change (vend [a; b; c]) with 3 in E. rewrite E. clear E.
  destruct Ha as [-> | ->], Hb as [-> | ->], Hc as [-> | ->]; split_and!;
    first [reflexivity | by left | by right].
Qed.

Lemma majority_rule_three_witness :
  spin 1 ∧ spin (-1)
  ∧ majority_rule [1; -1; -1; 1; 1; -1] 0 3 = Some (-1)
  ∧ majority_rule [1; -1; -1; 1; 1; -1] 3 6 = Some 1.
Proof.
  assert (spin 1) as H1 by (unfold spin; lia).
  assert (spin (-1)) as H2 by (unfold spin; lia).
  exact (conj H1 (conj H2 (conj
    (proj1 (majority_rule_three [] [1; 1; -1] 1 (-1) (-1) H1 H2 H2))
    (proj1 (majority_rule_three [1; -1; -1] [] 1 1 (-1) H1 H1 H2))))).
Defined.

(** ** The enumerator *)

Section Enumerator.

Lemma bitset6_testbit mask j :
  j ∈ [5; 4; 3; 2; 1; 0] →
  Z.testbit (bitset6 mask) j = Z.testbit mask j.
Proof.
  intros Hj. unfold bitset6. rewrite Z.land_spec.
  repeat (apply elem_of_cons in Hj as [-> | Hj]; [apply andb_true_r|]).
  by apply elem_of_nil in Hj.
Qed.

Lemma configuration_shape mask :
  configuration mask
  = [spin_of_bit (Z.testbit mask 5); spin_of_bit (Z.testbit mask 4);
     spin_of_bit (Z.testbit mask 3); spin_of_bit (Z.testbit mask 2);
     spin_of_bit (Z.testbit mask 1); spin_of_bit (Z.testbit mask 0)].
Proof.
  unfold configuration, fill_spin1, spin_of_bit.
  change (seqZ 0 6) with [0; 1; 2; 3; 4; 5]. cbn -[Z.testbit].
  rewrite !bitset6_testbit; [done|repeat constructor..].
Qed.

Lemma spin_of_bit_spin b : spin (spin_of_bit b).
Proof. unfold spin. destruct b; simpl; lia. Qed.

Lemma configuration_spins mask :
  length (configuration mask) = 6%nat ∧ Forall spin (configuration mask).
Proof.
  rewrite configuration_shape. split; [done|].
  repeat (constructor; [apply spin_of_bit_spin|]). constructor.
Qed.

Lemma encode_configuration k : 0 ≤ k ≤ 63 → encode (configuration k) = k.
Proof.
  intros Hk.
  assert (k ∈ seqZ 0 64) as Hin by (apply elem_of_seqZ; lia).
  clear Hk. revert k Hin. apply Forall_forall.
  apply (bool_decide_unpack _). vm_compute. exact I.
Qed.

Lemma configuration_encode (s : vec) :
  length s = 6%nat → Forall spin s →
  0 ≤ encode s ≤ 63 ∧ configuration (encode s) = s.
Proof.
  intros Hlen Hs.
  do 6 (destruct s as [|? s]; [done|]). destruct s; [|done].
  repeat match goal with
         | H : Forall _ (_ :: _) |- _ =>
             apply Forall_cons in H as [[-> | ->] H]
         end;
    (split; [vm_compute; split; discriminate|reflexivity]).
Qed.

Lemma configuration_inj k k' :
  0 ≤ k ≤ 63 → 0 ≤ k' ≤ 63 → configuration k = configuration k' → k = k'.
Proof.
  intros Hk Hk' E. apply (f_equal encode) in E.
  by rewrite !encode_configuration in E.
Qed.

End Enumerator.

(** ** The rows of the table *)

Section Rows.

(** The body of the loop over [mask] always produces a row. *)
Lemma row_of_mask_ok mask :
  ∃ r out, row_of_mask mask = Some (r, out) ∧ row_ok mask r.
Proof.
  unfold row_ok, row_of_mask. fold (configuration mask).
  destruct (configuration_spins mask) as [Hlen Hsp].
  destruct (configuration mask) as [|c1 [|c2 [|c3 [|c4 [|c5 [|c6 [|]]]]]]];
    try done.
  destruct (majority_rule_spin [] [c1; c2; c3] [c4; c5; c6])
    as (m1 & E1 & Hm1).
  destruct (majority_rule_spin [c1; c2; c3] [c4; c5; c6] [])
    as (m2 & E2 & Hm2).
  change (majority_rule [c1; c2; c3; c4; c5; c6] 0 3 = Some m1) in E1.
  change (majority_rule [c1; c2; c3; c4; c5; c6] 3 6 = Some m2) in E2.
  change (0 + 3) with 3.
  change (vend [c1; c2; c3; c4; c5; c6]) with 6 in *.
  rewrite energy_ring_sum by done. cbn [mbind option_bind].
  rewrite E1, E2. cbn [app].
  change (deref [c1; c2; c3; c4; c5; c6] 0) with (Some c1).
  change (deref [c1; c2; c3; c4; c5; c6] 1) with (Some c2).
  change (deref [c1; c2; c3; c4; c5; c6] 2) with (Some c3).
  change (deref [c1; c2; c3; c4; c5; c6] 3) with (Some c4).
  change (deref [c1; c2; c3; c4; c5; c6] 4) with (Some c5).
  change (deref [c1; c2; c3; c4; c5; c6] 5) with (Some c6).
  change (deref [m1] 0) with (Some m1).
  cbn [mbind option_bind].
  cbn [app].
  rewrite (energy_ring_sum [m1; m2]) by done.
  change (deref [m1; m2] 1) with (Some m2).
  cbn [mbind option_bind].
  eexists _, _. split; [reflexivity|]. cbn [spin1 H1 spin2 H2].
  split_and!; [done|by apply energy_ring_sum| |by apply energy_ring_sum].
  by exists m1, m2.
Qed.

Lemma enumerate_rows masks v config_data :
  ∃ rs out, enumerate masks v config_data = Some (v ++ rs, out)
            ∧ Forall2 row_ok masks rs.
Proof.
  revert v config_data.
  induction masks as [|mask masks IH]; intros v config_data; simpl.
  - exists [], config_data. by rewrite app_nil_r.
  - destruct (row_of_mask_ok mask) as (r & out & -> & Hr).
    cbn [mbind option_bind].
    destruct (IH (v ++ [r]) (config_data +:+ out)) as (rs & out' & -> & Hrs).
    exists (r :: rs), out'. rewrite <- app_assoc. split; [done|].
    by constructor.
Qed.

Lemma count_terms_total (v : list renorm_row) ceq cne :
  Forall (λ r, length (spin2 r) = 2%nat) v →
  count_terms v ceq cne
  = Some (tally (H1 <$> filter primed_equal v) ceq,
          tally (H1 <$> filter primed_unequal v) cne).
Proof.
  revert ceq cne. induction v as [|r v IH]; intros ceq cne Hv; [done|].
  apply Forall_cons in Hv as [Hr Hv]. simpl.
  destruct (spin2 r) as [|a [|b [|]]] eqn:E; try done. simpl.
  rewrite !filter_cons.
  destruct (Z.eqb_spec a b) as [->|Hab].
  - rewrite decide_True by (unfold primed_equal; by rewrite E).
    rewrite decide_False
      by (unfold primed_unequal; rewrite E; intros H; by apply H).
    simpl. by rewrite IH.
  - rewrite decide_False
      by (unfold primed_equal; rewrite E; simpl; congruence).
    rewrite decide_True
      by (unfold primed_unequal; rewrite E; simpl; congruence).
    simpl. by rewrite IH.
Qed.

(** The program runs to its end, and its final state is made of the rows
    of the 64 masks in order, the tables counted from those rows and the
    equations written from those tables. *)
Lemma main_run :
  ∃ run, main = Some run
    ∧ Forall2 row_ok all_masks (rows run)
    ∧ counts_equal run = tally (H1 <$> filter primed_equal (rows run)) []
    ∧ counts_unequal run
      = tally (H1 <$> filter primed_unequal (rows run)) []
    ∧ renorm_out run
      = write_equations (counts_equal run) (counts_unequal run).
Proof.
  unfold main.
  destruct (enumerate_rows all_masks [] (EmptyString +:+ cfg_header))
    as (rs & out & -> & Hrs).
  cbn [mbind option_bind app]. rewrite count_terms_total.
  - cbn [mbind option_bind]. eexists. split; [reflexivity|]. done.
  - eapply Forall2_Forall_r; [apply Hrs|].
    apply Forall_true.
    intros mask r (_ & _ & (? & ? & _ & _ & _ & _ & ->) & _). done.
Qed.

End Rows.

(** ** The tables of counts *)

Section Tables.
Import CInt CIntFacts.

Lemma map_find_fresh key (m : int_map) :
  Forall (Z.lt key) (keys m) → map_find key m = None.
Proof.
  induction m as [|[k c] m IH]; [done|]. simpl. intros H.
  apply Forall_cons in H as [Hk H].
  destruct (Z.eqb_spec key k); [lia|]. by apply IH.
Qed.

Lemma elem_of_keys_map_incr key (m : int_map) x :
  x ∈ keys (map_incr key m) ↔ x = key ∨ x ∈ keys m.
Proof.
  unfold keys. induction m as [|[k c] m IH]; simpl.
  - rewrite list_elem_of_singleton. split; [by left|].
    intros [?|H]; [done|]. by apply elem_of_nil in H.
  - destruct (Z.ltb_spec key k); [|destruct (Z.eqb_spec key k) as [->|]];
      simpl; rewrite ?elem_of_cons, ?IH; simpl; tauto.
Qed.

Lemma ascending_map_incr key (m : int_map) :
  ascending (keys m) → ascending (keys (map_incr key m)).
Proof.
  unfold ascending, keys. induction m as [|[k c] m IH]; simpl; intros Hm.
  - repeat constructor.
  - apply StronglySorted_inv in Hm as [Hm Hk].
    destruct (Z.ltb_spec key k) as [Hlt|Hge];
      [|destruct (Z.eqb_spec key k) as [->|Hne]]; simpl.
    + constructor; [by constructor|].
      constructor; [done|]. eapply Forall_impl; [exact Hk|].
      simpl. intros; lia.
    + by constructor.
    + constructor; [by apply IH|].
      apply Forall_forall. intros x Hx.
      apply (elem_of_keys_map_incr key m x) in Hx as [->|Hx]; [lia|].
      by apply (proj1 (Forall_forall _ _) Hk).
Qed.

Lemma map_find_map_incr key (m : int_map) h :
  ascending (keys m) →
  map_find h (map_incr key m)
  = if h =? key then Some (add (count_of key m) 1) else map_find h m.
Proof.
  unfold ascending, keys, count_of.
  induction m as [|[k c] m IH]; simpl; intros Hm.
  - by destruct (Z.eqb_spec h key).
  - apply StronglySorted_inv in Hm as [Hm Hk].
    destruct (Z.ltb_spec key k) as [Hlt|Hge];
      [|destruct (Z.eqb_spec key k) as [->|Hne]]; simpl.
    + destruct (Z.eqb_spec h key) as [E|Hh].
      * destruct (Z.eqb_spec key k); [lia|].
        rewrite (map_find_fresh key m); [done|].
        eapply Forall_impl; [exact Hk|]. simpl. intros; lia.
      * done.
    + by destruct (Z.eqb_spec h k).
    + rewrite IH by done.
      destruct (Z.eqb_spec h k) as [Hhk|Hhk];
        destruct (Z.eqb_spec h key) as [Hhkey|Hhkey]; try done.
      congruence.
Qed.

Lemma total_cons k c (m : int_map) : total ((k, c) :: m) = c + total m.
Proof. reflexivity. Qed.

Lemma total_map_incr key (m : int_map) :
  ascending (keys m) →
  total (map_incr key m) = total m - count_of key m + add (count_of key m) 1.
Proof.
  unfold ascending, keys, count_of.
  induction m as [|[k c] m IH]; intros Hm.
  - unfold total. simpl. lia.
  - apply StronglySorted_inv in Hm as [Hm Hk]. cbn [map_incr map_find].
    destruct (Z.ltb_spec key k) as [Hlt|Hge];
      [|destruct (Z.eqb_spec key k) as [->|Hne]].
    + destruct (Z.eqb_spec key k); [lia|].
      rewrite (map_find_fresh key m).
      * rewrite !total_cons. simpl. lia.
      * eapply Forall_impl; [exact Hk|]. simpl. intros; lia.
    + rewrite !total_cons. simpl. lia.
    + rewrite !total_cons, IH by done. lia.
Qed.

Lemma occurrences_snoc h hs x :
  occurrences h (hs ++ [x])
  = occurrences h hs + (if x =? h then 1 else 0).
Proof.
  unfold occurrences. rewrite filter_app, length_app, filter_cons, filter_nil.
  destruct (Z.eqb_spec x h).
  - rewrite decide_True by done. simpl. lia.
  - rewrite decide_False by done. simpl. lia.
Qed.

Lemma occurrences_bound h hs : 0 ≤ occurrences h hs ≤ Z.of_nat (length hs).
Proof.
  unfold occurrences. pose proof (length_filter (λ x, x = h) hs). lia.
Qed.

Lemma table_of_nil : table_of [] [].
Proof. split_and!; [constructor|done|done]. Qed.

(** One [++m[h]] takes the table of a list to the table of the list with
    [h] added, as long as the counts stay in the range of [int]. *)
Lemma table_of_map_incr hs (m : int_map) h :
  table_of hs m → Z.of_nat (length hs) < int_max →
  table_of (hs ++ [h]) (map_incr h m).
Proof.
  intros (Hs & Hf & Ht) Hmax.
  assert (count_of h m = occurrences h hs) as Hc.
  { unfold count_of. rewrite Hf.
    destruct (Z.eqb_spec (occurrences h hs) 0) as [->|]; done. }
  assert (add (count_of h m) 1 = occurrences h hs + 1) as Ha.
  { rewrite Hc. apply wrap_small.
    pose proof (occurrences_bound h hs).
    unfold in_range, int_min, int_max in *. lia. }
  split_and!.
  - by apply ascending_map_incr.
  - intros x. rewrite map_find_map_incr by done.
    rewrite occurrences_snoc, Ha, Hf.
    pose proof (occurrences_bound x hs).
    pose proof (occurrences_bound h hs).
    destruct (Z.eqb_spec x h) as [->|Hx].
    + rewrite Z.eqb_refl.
      destruct (Z.eqb_spec (occurrences h hs + 1) 0); [lia|done].
    + destruct (Z.eqb_spec h x); [congruence|].
      by rewrite Z.add_0_r.
  - rewrite total_map_incr, Ha, Hc, Ht, length_app by done. simpl. lia.
Qed.

Lemma table_of_tally pre hs (m : int_map) :
  table_of pre m → Z.of_nat (length (pre ++ hs)) ≤ int_max →
  table_of (pre ++ hs) (tally hs m).
Proof.
  revert pre m. induction hs as [|h hs IH]; intros pre m Hm Hmax.
  - by rewrite app_nil_r.
  - simpl.
    replace (pre ++ h :: hs) with ((pre ++ [h]) ++ hs) in *
      by (by rewrite <- app_assoc).
    apply IH; [|done].
    apply table_of_map_incr; [done|].
    rewrite !length_app in Hmax. simpl in Hmax. lia.
Qed.

Lemma elem_of_keys_map_find (m : int_map) h :
  h ∈ keys m ↔ is_Some (map_find h m).
Proof.
  unfold keys. induction m as [|[k c] m IH]; simpl.
  - split; [intros H; by apply elem_of_nil in H|by intros [? ?]].
  - rewrite elem_of_cons, IH.
    destruct (Z.eqb_spec h k) as [->|]; [by split; [eexists|left]|].
    tauto.
Qed.

Lemma table_of_keys hs (m : int_map) h :
  table_of hs m → h ∈ keys m ↔ h ∈ hs.
Proof.
  intros (_ & Hf & _). rewrite elem_of_keys_map_find, Hf.
  unfold occurrences.
  destruct (Z.eqb_spec (Z.of_nat (length (filter (λ x, x = h) hs))) 0)
    as [E|E].
  - split; [by intros [? ?]|]. intros Hin.
    assert (h ∈ filter (λ x, x = h) hs) as Hin'
      by (by apply list_elem_of_filter).
    destruct (filter (λ x, x = h) hs); [by apply elem_of_nil in Hin'|].
    simpl in E. lia.
  - split; [|by eexists]. intros _.
    destruct (filter (λ x, x = h) hs) as [|x l] eqn:Ef; [done|].
    assert (x ∈ filter (λ x, x = h) hs) as Hx by (rewrite Ef; by left).
    apply list_elem_of_filter in Hx as [-> Hx]. done.
Qed.

End Tables.

(** ** The text of the equations *)

Section Equations.

Lemma append_assoc (a b c : string) : (a +:+ b) +:+ c = a +:+ b +:+ c.
Proof.
  induction a as [|x a IH]; [reflexivity|].
  change (String x ((a +:+ b) +:+ c) = String x (a +:+ b +:+ c)).
  by f_equal.
Qed.

Lemma append_nil_r (a : string) : a +:+ EmptyString = a.
Proof.
  induction a as [|x a IH]; [reflexivity|].
  change (String x (a +:+ EmptyString) = String x a). by f_equal.
Qed.

Lemma write_terms_next e (m : int_map) ofs :
  write_terms false m (ofs +:+ term e)
  = ofs +:+ String.concat "+ " (term <$> e :: m).
Proof.
  revert e ofs. induction m as [|e' m IH]; intros e ofs; [done|].
  cbn [write_terms]. rewrite IH.
  change (String.concat "+ " (term <$> e :: e' :: m))
    with (term e +:+ "+ " +:+ String.concat "+ " (term <$> e' :: m)).
  by rewrite !append_assoc.
Qed.

(** The loop over a table writes its terms joined by ["+ "]. *)
Lemma write_terms_concat (m : int_map) ofs :
  write_terms true m ofs = ofs +:+ String.concat "+ " (term <$> m).
Proof.
  destruct m as [|e m]; cbn [write_terms].
  - by rewrite append_nil_r.
  - apply write_terms_next.
Qed.

Lemma write_equations_lines (ceq cne : int_map) :
  write_equations ceq cne
  = (label_equal +:+ String.concat "+ " (term <$> ceq) +:+ endl)
    +:+ (label_unequal +:+ String.concat "+ " (term <$> cne) +:+ endl).
Proof.
  unfold write_equations. rewrite !write_terms_concat.
  change (EmptyString +:+ label_equal) with label_equal.
  by rewrite !append_assoc.
Qed.

End Equations.

(** ** The run of the program *)

Section Run.
Import CInt CIntFacts.

Lemma all_masks_length : length all_masks = 64%nat.
Proof. reflexivity. Qed.

Lemma occurrences_H1 h (v : list renorm_row) :
  occurrences h (H1 <$> v) = rows_with_H1 h v.
Proof.
  unfold occurrences, rows_with_H1. f_equal.
  induction v as [|r v IH]; [done|].
  rewrite fmap_cons, !filter_cons.
  destruct (decide (H1 r = h)); simpl; by rewrite IH.
Qed.

Lemma row_ok_H1 mask r : row_ok mask r → even_within_6 (H1 r).
Proof.
  intros (Hs & He & _).
  destruct (configuration_spins mask) as [Hlen Hsp]. rewrite <- Hs in *.
  assert (spin1 r ≠ []) as Hne by (by destruct (spin1 r)).
  rewrite energy_ring_sum in He by done.
  destruct (ring_sum_spin (spin1 r) Hsp Hne) as (w & Hw & E).
  unfold vend in *. rewrite Hlen in *. simpl in Hw, E.
  rewrite wrap_small in He
    by (unfold in_range, int_min, int_max; lia).
  injection He as <-. rewrite E. split; [|lia].
  rewrite Z.even_sub, Z.even_mul. done.
Qed.

Lemma energy_two_spins a b :
  spin a → spin b →
  energy [a; b] 0 (vend [a; b]) = Some (2 * a * b).
Proof. intros [-> | ->] [-> | ->]; reflexivity. Qed.

Lemma row_ok_H2 mask r :
  row_ok mask r →
  ∃ s1' s2', spin2 r = [s1'; s2'] ∧ spin s1' ∧ spin s2'
             ∧ H2 r = 2 * s1' * s2'.
Proof.
  intros (_ & _ & (s1' & s2' & _ & _ & H1' & H2' & Hs2) & He).
  exists s1', s2'. split_and!; try done.
  rewrite Hs2, energy_two_spins in He by done. by injection He.
Qed.

Lemma Forall2_row_ok_Forall (P : renorm_row → Prop) masks rs :
  (∀ mask r, row_ok mask r → P r) → Forall2 row_ok masks rs → Forall P rs.
Proof.
  intros HP H. eapply Forall2_Forall_r; [exact H|].
  apply Forall_true. intros mask r. apply HP.
Qed.

(** Both tables of a run are the tables of the [H1] of their class. *)
Lemma run_tables (v : list renorm_row) (P : renorm_row → Prop)
    `{!∀ r, Decision (P r)} :
  length v = 64%nat → table_of (H1 <$> filter P v) (tally (H1 <$> filter P v) []).
Proof.
  intros Hlen.
  pose proof (table_of_tally [] (H1 <$> filter P v) [] table_of_nil) as T.
  rewrite app_nil_l in T. apply T. rewrite length_fmap.
  pose proof (length_filter P v). unfold int_max. lia.
Qed.

End Run.

Section RunFacts.

Lemma rows_configurations masks rs :
  Forall2 row_ok masks rs → spin1 <$> rs = configuration <$> masks.
Proof.
  induction 1 as [|mask r masks rs (Hs & _) _ IH]; [done|].
  rewrite !fmap_cons. by f_equal.
Qed.

Lemma configurations_NoDup : NoDup (configuration <$> seqZ 0 64).
Proof.
  apply NoDup_fmap_2_strong; [|apply NoDup_seqZ].
  intros k k' Hk Hk' E. apply elem_of_seqZ in Hk, Hk'.
  apply configuration_inj; [lia..|done].
Qed.

Lemma even_within_6_values h :
  even_within_6 h ↔ h ∈ [-6; -4; -2; 0; 2; 4; 6].
Proof.
  unfold even_within_6. split.
  - intros [He Hb].
    assert (h = -6 ∨ h = -5 ∨ h = -4 ∨ h = -3 ∨ h = -2 ∨ h = -1 ∨ h = 0
            ∨ h = 1 ∨ h = 2 ∨ h = 3 ∨ h = 4 ∨ h = 5 ∨ h = 6) as Hc by lia.
    repeat (destruct Hc as [-> | Hc]; [first [done | repeat constructor]|]).
    subst. repeat constructor.
  - intros H.
    repeat (apply elem_of_cons in H as [-> | H]; [split; [done|lia]|]).
    by apply elem_of_nil in H.
Qed.

Lemma class_keys_H1 (v : list renorm_row) (P : renorm_row → Prop)
    `{!∀ r, Decision (P r)} h :
  h ∈ H1 <$> filter P v ↔ ∃ r, r ∈ v ∧ P r ∧ H1 r = h.
Proof.
  rewrite list_elem_of_fmap. split.
  - intros (r & -> & Hr). apply list_elem_of_filter in Hr as [? ?].
    by exists r.
  - intros (r & Hr & HP & <-). exists r. split; [done|].
    by apply list_elem_of_filter.
Qed.

End RunFacts.

(** ** The enumeration of the configurations *)

(** C4. For every [k] from 0 to 63 the enumerator decodes [k] into the six
    spins given by bits 5, 4, 3, 2, 1, 0 of [k] in that order (site s1 takes
    bit 5, site s6 takes bit 0), with bit value 1 as +1 and bit value 0 as
    -1, and encoding that sequence back returns [k]. In the other direction
    every sequence [s] of six spins encodes to a number from 0 to 63 that
    decodes to [s]. The program produces the 64 configurations in the order
    of [k], each exactly once. *)
Theorem configuration_bijection (k : Z) (s : vec) :
  0 ≤ k ≤ 63 → length s = 6%nat → Forall spin s →
  configuration k
  = [spin_of_bit (Z.testbit k 5); spin_of_bit (Z.testbit k 4);
     spin_of_bit (Z.testbit k 3); spin_of_bit (Z.testbit k 2);
     spin_of_bit (Z.testbit k 1); spin_of_bit (Z.testbit k 0)]
  ∧ encode (configuration k) = k
  ∧ 0 ≤ encode s ≤ 63
  ∧ configuration (encode s) = s
  ∧ ∃ run, main = Some run
      ∧ spin1 <$> rows run = configuration <$> seqZ 0 64
      ∧ (spin1 <$> rows run) !! Z.to_nat k = Some (configuration k)
      ∧ NoDup (spin1 <$> rows run).
Proof.
  intros Hk Hlen Hs.
  destruct (configuration_encode s Hlen Hs) as [Hr He].
  split_and!; [apply configuration_shape|by apply encode_configuration|
               lia|lia|done|].
  destruct main_run as (run & Hrun & Hrows & _).
  exists run. split; [exact Hrun|]. clear Hrun.
  apply rows_configurations in Hrows.
  change all_masks with (seqZ 0 64) in Hrows. rewrite Hrows.
  split_and!; [reflexivity| |apply configurations_NoDup].
  rewrite list_lookup_fmap, lookup_seqZ_lt by lia. simpl.
  f_equal. f_equal. lia.
Qed.

Lemma configuration_bijection_witness :
  0 ≤ 37 ≤ 63 ∧ length [1; -1; -1; 1; -1; 1]%Z = 6%nat
  ∧ Forall spin [1; -1; -1; 1; -1; 1]
  ∧ configuration 37 = [1; -1; -1; 1; -1; 1]
  ∧ encode (configuration 37) = 37.
Proof.
  assert (0 ≤ 37 ≤ 63) as H1 by lia.
  assert (length [1; -1; -1; 1; -1; 1]%Z = 6%nat) as H2 by reflexivity.
  assert (Forall spin [1; -1; -1; 1; -1; 1]) as H3
    by (repeat constructor; unfold spin; lia).
  pose proof (configuration_bijection 37 [1; -1; -1; 1; -1; 1] H1 H2 H3)
    as (Hc & He & _).
  exact (conj H1 (conj H2 (conj H3 (conj Hc He)))).
Defined.

(** ** The energies of the rows *)

(** C3. The program runs to its end, and in every row the coarse-grained
    energy H2 is the result of the same [energy] function on the pair of
    block spins (s1', s2'), themselves the majority of the first and of the
    last three spins; it equals 2 * s1' * s2' and so is +2 or -2. *)
Theorem H2_twice_block_product :
  ∃ run, main = Some run
    ∧ Forall (λ r, ∃ s1' s2',
                majority_rule (spin1 r) 0 3 = Some s1'
                ∧ majority_rule (spin1 r) 3 6 = Some s2'
                ∧ spin2 r = [s1'; s2']
                ∧ energy (spin2 r) 0 (vend (spin2 r)) = Some (H2 r)
                ∧ H2 r = 2 * s1' * s2'
                ∧ (H2 r = 2 ∨ H2 r = -2))
             (rows run).
Proof.
  destruct main_run as (run & Hrun & Hrows & _).
  exists run. split; [exact Hrun|]. clear Hrun.
  eapply Forall2_row_ok_Forall; [|exact Hrows].
  intros mask r Hr.
  destruct (row_ok_H2 mask r Hr) as (s1' & s2' & Hs2 & H1' & H2' & E).
  destruct Hr as (_ & _ & (a & b & Ha & Hb & _ & _ & Hab) & He).
  rewrite Hs2 in Hab. injection Hab as <- <-.
  exists s1', s2'. split_and!; try done.
  rewrite E. unfold spin in *. lia.
Qed.

(** C6. The program runs to its end, and in every row the original energy
    H1 is one of -6, -4, -2, 0, 2, 4, 6, an even integer between -6 and 6;
    so is every key of either table. *)
Theorem H1_even_within_6 :
  ∃ run, main = Some run
    ∧ Forall (λ r, H1 r ∈ [-6; -4; -2; 0; 2; 4; 6] ∧ even_within_6 (H1 r))
             (rows run)
    ∧ Forall (λ h, h ∈ [-6; -4; -2; 0; 2; 4; 6] ∧ even_within_6 h)
             (keys (counts_equal run))
    ∧ Forall (λ h, h ∈ [-6; -4; -2; 0; 2; 4; 6] ∧ even_within_6 h)
             (keys (counts_unequal run)).
Proof.
  destruct main_run as (run & Hrun & Hrows & Heq & Hne & _).
  exists run. split; [exact Hrun|]. clear Hrun.
  assert (length (rows run) = 64%nat) as Hlen
    by (by rewrite <- (Forall2_length _ _ _ Hrows)).
  assert (Forall (λ r, even_within_6 (H1 r)) (rows run)) as HH1.
  { eapply Forall2_row_ok_Forall; [|exact Hrows]. apply row_ok_H1. }
  assert (∀ (P : renorm_row → Prop) `{!∀ r, Decision (P r)},
            Forall (λ h, h ∈ [-6; -4; -2; 0; 2; 4; 6] ∧ even_within_6 h)
              (keys (tally (H1 <$> filter P (rows run)) []))) as Hkeys.
  { intros P HP. apply Forall_forall. intros h Hh.
    apply (table_of_keys _ _ _ (run_tables (rows run) P Hlen)) in Hh.
    apply class_keys_H1 in Hh as (r & Hr & _ & <-).
    rewrite <- even_within_6_values.
    split; by apply (proj1 (Forall_forall _ _) HH1). }
  split_and!; [|rewrite Heq; apply Hkeys|rewrite Hne; apply Hkeys].
  eapply Forall_impl; [exact HH1|]. intros r Hr. simpl.
  by rewrite <- even_within_6_values.
Qed.

(** ** The two classes and their tables *)

Section Classes.

Lemma map_find_entry (m : int_map) e :
  ascending (keys m) → e ∈ m → map_find e.1 m = Some e.2.
Proof.
  unfold ascending, keys. induction m as [|[k c] m IH]; intros Hm He.
  - by apply elem_of_nil in He.
  - apply StronglySorted_inv in Hm as [Hm Hk]. simpl.
    apply elem_of_cons in He as [->|He]; simpl.
    + by rewrite Z.eqb_refl.
    + assert (k < e.1).
      { apply (proj1 (Forall_forall _ _) Hk), list_elem_of_fmap.
        by exists e. }
      destruct (Z.eqb_spec e.1 k); [lia|]. by apply IH.
Qed.

Lemma table_of_count hs (m : int_map) h :
  table_of hs m → count_of h m = occurrences h hs.
Proof.
  intros (_ & Hf & _). unfold count_of. rewrite Hf.
  by destruct (Z.eqb_spec (occurrences h hs) 0) as [->|].
Qed.

Lemma table_of_entry hs (m : int_map) e :
  table_of hs m → e ∈ m → e.2 = occurrences e.1 hs ∧ 0 < e.2.
Proof.
  intros Hm He. pose proof Hm as (Hs & Hf & _).
  pose proof (map_find_entry m e Hs He) as E. rewrite Hf in E.
  pose proof (occurrences_bound e.1 hs).
  destruct (Z.eqb_spec (occurrences e.1 hs) 0); [done|].
  injection E as <-. lia.
Qed.

Lemma classes_complement (v : list renorm_row) :
  filter primed_equal v ++ filter primed_unequal v ≡ₚ v.
Proof.
  rewrite (list_filter_iff primed_unequal (λ r, ¬ primed_equal r)) by done.
  apply filter_app_complement.
Qed.

End Classes.

(** C5. The program runs to its end with 64 rows. Each row is in exactly one
    of the classes s1' = s2' and s1' != s2', and the two classes together
    are the 64 rows. The table of the "equal" class counts, under each H1,
    the rows of that class with that H1, and the table of the "unequal" class
    those of the other class; so the counts of the first table add up to the
    size of the first class, those of the second to the size of the second,
    and all counts together to 64. *)
Theorem classes_partition_counts :
  ∃ run, main = Some run
    ∧ length (rows run) = 64%nat
    ∧ Forall (λ r, primed_equal r ↔ ¬ primed_unequal r) (rows run)
    ∧ filter primed_equal (rows run) ++ filter primed_unequal (rows run)
      ≡ₚ rows run
    ∧ (∀ h, count_of h (counts_equal run)
            = rows_with_H1 h (filter primed_equal (rows run)))
    ∧ (∀ h, count_of h (counts_unequal run)
            = rows_with_H1 h (filter primed_unequal (rows run)))
    ∧ total (counts_equal run)
      = Z.of_nat (length (filter primed_equal (rows run)))
    ∧ total (counts_unequal run)
      = Z.of_nat (length (filter primed_unequal (rows run)))
    ∧ total (counts_equal run) + total (counts_unequal run) = 64.
Proof.
  destruct main_run as (run & Hrun & Hrows & Heq & Hne & _).
  exists run. split; [exact Hrun|]. clear Hrun.
  assert (length (rows run) = 64%nat) as Hlen
    by (by rewrite <- (Forall2_length _ _ _ Hrows)).
  pose proof (run_tables (rows run) primed_equal Hlen) as Teq.
  pose proof (run_tables (rows run) primed_unequal Hlen) as Tne.
  rewrite <- Heq in Teq. rewrite <- Hne in Tne.
  assert (total (counts_equal run)
          = Z.of_nat (length (filter primed_equal (rows run)))) as Eeq.
  { destruct Teq as (_ & _ & ->). by rewrite length_fmap. }
  assert (total (counts_unequal run)
          = Z.of_nat (length (filter primed_unequal (rows run)))) as Ene.
  { destruct Tne as (_ & _ & ->). by rewrite length_fmap. }
  split_and!; [exact Hlen| | | | |exact Eeq|exact Ene|].
  - apply Forall_true. intros r. unfold primed_unequal. split.
    + intros HP HnP. exact (HnP HP).
    + intros H. destruct (decide (primed_equal r)) as [HP|HnP]; [exact HP|].
      destruct (H HnP).
  - apply classes_complement.
  - intros h. by rewrite (table_of_count _ _ _ Teq), occurrences_H1.
  - intros h. by rewrite (table_of_count _ _ _ Tne), occurrences_H1.
  - rewrite Eeq, Ene, <- Nat2Z.inj_add, <- length_app.
    by rewrite (classes_complement (rows run)), Hlen.
Qed.

(** C8. The program runs to its end, and the text of the summary equations
    is two lines: the label of the "equal" class, then the terms of its table
    joined by "+ ", then the label of the "unequal" class and the terms of
    its table joined the same way. A term is the count, " Exp[", the H1 key
    and " k]". Each table is iterated by strictly ascending key, its keys
    are exactly the H1 values found in its class, and the count written
    with a key is the number of rows of the class with that H1. *)
Theorem summary_equations_text :
  ∃ run, main = Some run
    ∧ renorm_out run
      = (label_equal
           +:+ String.concat "+ " (term <$> counts_equal run) +:+ endl)
        +:+ (label_unequal
               +:+ String.concat "+ " (term <$> counts_unequal run) +:+ endl)
    ∧ (∀ count h, term (h, count)
                  = show_int count +:+ " Exp[" +:+ show_int h +:+ " k]")
    ∧ ascending (keys (counts_equal run))
    ∧ ascending (keys (counts_unequal run))
    ∧ (∀ h, h ∈ keys (counts_equal run)
            ↔ ∃ r, r ∈ rows run ∧ primed_equal r ∧ H1 r = h)
    ∧ (∀ h, h ∈ keys (counts_unequal run)
            ↔ ∃ r, r ∈ rows run ∧ primed_unequal r ∧ H1 r = h)
    ∧ Forall (λ e, e.2 = rows_with_H1 e.1 (filter primed_equal (rows run))
                   ∧ 0 < e.2) (counts_equal run)
    ∧ Forall (λ e, e.2 = rows_with_H1 e.1 (filter primed_unequal (rows run))
                   ∧ 0 < e.2) (counts_unequal run).
Proof.
  destruct main_run as (run & Hrun & Hrows & Heq & Hne & Hout).
  exists run. split; [exact Hrun|]. clear Hrun.
  assert (length (rows run) = 64%nat) as Hlen
    by (by rewrite <- (Forall2_length _ _ _ Hrows)).
  pose proof (run_tables (rows run) primed_equal Hlen) as Teq.
  pose proof (run_tables (rows run) primed_unequal Hlen) as Tne.
  rewrite <- Heq in Teq. rewrite <- Hne in Tne.
  split_and!.
  - rewrite Hout. apply write_equations_lines.
  - reflexivity.
  - by destruct Teq.
  - by destruct Tne.
  - intros h. rewrite (table_of_keys _ _ _ Teq). apply class_keys_H1.
  - intros h. rewrite (table_of_keys _ _ _ Tne). apply class_keys_H1.
  - apply Forall_forall. intros e He. rewrite <- occurrences_H1.
    exact (table_of_entry _ _ e Teq He).
  - apply Forall_forall. intros e He. rewrite <- occurrences_H1.
    exact (table_of_entry _ _ e Tne He).
Qed.

(** ** The run on the fixed problem *)

(** The all-(+1) configuration is that of k = 63: H1 = 6, the block pair is
    (+1,+1) and H2 = 2. *)
Example row_all_up :
  fst <$> row_of_mask 63 = Some (mk_row [1; 1; 1; 1; 1; 1] 6 [1; 1] 2).
Proof. reflexivity. Qed.

(** The alternating configuration is that of k = 42: H1 = -6, the block
    pair is (+1,-1) and H2 = -2. *)
Example row_alternating :
  fst <$> row_of_mask 42 = Some (mk_row [1; -1; 1; -1; 1; -1] (-6) [1; -1] (-2)).
Proof. reflexivity. Qed.

(** The line of the raw table for k = 42. *)
Example line_alternating :
  snd <$> row_of_mask 42
  = Some ("  1 -1  1" +:+ tab +:+ "  1" +:+ tab +:+ " -1  1 -1" +:+ tab
          +:+ " -1" +:+ tab +:+ tab +:+ " -6" +:+ tab +:+ " -2" +:+ endl).
Proof. reflexivity. Qed.

(** Both tables and the text of the equations at the end of the run. *)
Example main_tables :
  (λ r, (counts_equal r, counts_unequal r)) <$> main
  = Some ([(-2, 14); (2, 16); (6, 2)], [(-6, 2); (-2, 16); (2, 14)]).
Proof. vm_compute. reflexivity. Qed.

Example main_renorm_out :
  renorm_out <$> main
  = Some ("Exp[A(k)+2k'] = 14 Exp[-2 k]+ 16 Exp[2 k]+ 2 Exp[6 k]" +:+ endl
          +:+ "Exp[A(k)-2k'] = 2 Exp[-6 k]+ 16 Exp[-2 k]+ 14 Exp[2 k]"
          +:+ endl).
Proof. vm_compute. reflexivity. Qed.

(** The raw table has its header line and one line for each of the 64
    configurations. *)
Example main_cfg_out_lines :
  (λ r, length (filter (λ c, c = ascii_of_nat 10)
                       (String.list_ascii_of_string (cfg_out r)))) <$> main
  = Some 65%nat.
Proof. vm_compute. reflexivity. Qed.


(** * Further properties of the kernels and of the run *)

(** ** Ranges that the kernels can read *)

Section Definedness.
Import CInt CIntFacts.

Lemma deref_is_Some (v : vec) k : is_Some (deref v k) ↔ 0 ≤ k < vend v.
Proof.
  unfold deref, vend. destruct (Z.ltb_spec k 0) as [Hk|Hk].
  - split; [by intros [? ?]|lia].
  - rewrite lookup_lt_is_Some. lia.
Qed.

Lemma range_split (v : vec) first last :
  0 ≤ first → first ≤ last → last ≤ vend v →
  ∃ pre l post, v = pre ++ l ++ post ∧ vend pre = first
                ∧ vend l = last - first.
Proof.
  intros H0 Hfl Hl. unfold vend in *.
  exists (take (Z.to_nat first) v),
         (take (Z.to_nat (last - first)) (drop (Z.to_nat first) v)),
         (drop (Z.to_nat (last - first)) (drop (Z.to_nat first) v)).
  split_and!.
  - by rewrite !take_drop.
  - rewrite length_take. lia.
  - rewrite length_take, length_drop. lia.
Qed.

Lemma accumulate_overrun (v : vec) fuel first last init :
  first < last → vend v < last → accumulate fuel v first last init = None.
Proof.
  revert first init. induction fuel as [|fuel IH]; intros first init Hf Hv;
    [done|].
  cbn [accumulate]. destruct (Z.eqb_spec first last); [lia|].
  cbn [negb]. destruct (deref v first) as [x|] eqn:E; [|done].
  cbn [mbind option_bind]. apply IH; [|done].
  assert (is_Some (deref v first)) as Hs by (by eexists).
  apply deref_is_Some in Hs. lia.
Qed.

Lemma accumulate_empty_range (v : vec) k init :
  accumulate (accumulate_fuel k k) v k k init = Some init.
Proof. unfold accumulate_fuel. cbn [accumulate]. by rewrite Z.eqb_refl. Qed.

End Definedness.

(** X1. [energy] returns a value exactly when the element at [first] and the
    element before [last] both lie inside the vector; on the empty vector,
    and on any range that starts at [begin()] and is empty, it reads before
    the first element and has no defined result. *)
Theorem energy_defined_iff (v : vec) (first last : Z) :
  (is_Some (energy v first last)
   ↔ 0 ≤ first < vend v ∧ 0 < last ≤ vend v)
  ∧ energy v 0 0 = None.
Proof.
  split; [|reflexivity]. split.
  - intros [e He]. unfold energy in He.
    destruct (energy_loop _ v last first 0) as [s|]; [|done].
    cbn [mbind option_bind] in He.
    destruct (deref v (last - 1)) as [a|] eqn:Ea; [|done].
    destruct (deref v first) as [b|] eqn:Eb; [|done].
    assert (is_Some (deref v (last - 1))) as Ha by (by eexists).
    assert (is_Some (deref v first)) as Hb by (by eexists).
    apply deref_is_Some in Ha, Hb. lia.
  - intros [Hf Hl].
    destruct (Z.lt_ge_cases first (last - 1)) as [Hlt|Hge].
    + destruct (range_split v first last) as (pre & l & post & -> & <- & El);
        [lia..|].
      replace last with (vend pre + vend l) by lia.
      rewrite energy_range; [done|]. intros ->. unfold vend in *.
      simpl in El. lia.
    + unfold energy, energy_fuel.
      replace (Z.to_nat (last - 1 - first)) with 0%nat by lia.
      cbn [energy_loop]. destruct (Z.ltb_spec first (last - 1)); [lia|].
      cbn [mbind option_bind].
      destruct (proj2 (deref_is_Some v (last - 1))) as [a ->]; [lia|].
      destruct (proj2 (deref_is_Some v first)) as [b ->]; [lia|].
      done.
Qed.

(** X2. [majority_rule] returns a value exactly on an empty range, wherever
    it is, and on a range that lies inside the vector; a range that starts
    before the vector, ends after it or runs backwards has no defined
    result. *)
Theorem majority_rule_defined_iff (v : vec) (first last : Z) :
  is_Some (majority_rule v first last)
  ↔ first = last ∨ (0 ≤ first ∧ first < last ∧ last ≤ vend v).
Proof.
  unfold majority_rule. split.
  - intros Hs.
    destruct (decide (first = last)) as [|Hne]; [by left|right].
    destruct (accumulate _ v first last 0) as [s|] eqn:E;
      [|by destruct Hs].
    clear Hs. unfold accumulate_fuel in E.
    destruct (Z.lt_ge_cases last first) as [Hlt|Hge].
    + replace (Z.to_nat (last - first)) with 0%nat in E by lia.
      cbn [accumulate] in E. destruct (Z.eqb_spec first last); [lia|].
      cbn [negb] in E. by destruct (deref v first).
    + destruct (Z.lt_ge_cases (vend v) last) as [Hv|Hv].
      { rewrite accumulate_overrun in E by lia. done. }
      split_and!; [|lia|done].
      cbn [accumulate] in E. destruct (Z.eqb_spec first last); [lia|].
      cbn [negb] in E. destruct (deref v first) as [x|] eqn:Ex; [|done].
      assert (is_Some (deref v first)) as Hx by (by eexists).
      apply deref_is_Some in Hx. lia.
  - intros [->|(H0 & Hlt & Hv)].
    + by rewrite accumulate_empty_range.
    + destruct (range_split v first last) as (pre & l & post & -> & <- & El);
        [lia..|].
      replace last with (vend pre + vend l) by lia.
      fold (majority_rule (pre ++ l ++ post) (vend pre) (vend pre + vend l)).
      by rewrite majority_rule_range.
Qed.

(** ** The majority rule on any range *)

Section Majority.
Import CInt CIntFacts.

Lemma ups_downs_cons a (l : vec) :
  ups (a :: l) = (if a =? 1 then 1 else 0) + ups l
  ∧ downs (a :: l) = (if a =? -1 then 1 else 0) + downs l.
Proof.
  unfold ups, downs. rewrite !filter_cons. split.
  - destruct (Z.eqb_spec a 1).
    + rewrite decide_True by done. simpl length. lia.
    + rewrite decide_False by done. lia.
  - destruct (Z.eqb_spec a (-1)).
    + rewrite decide_True by done. simpl length. lia.
    + rewrite decide_False by done. lia.
Qed.

Lemma sumZ_spins (l : vec) :
  Forall spin l → sumZ l = ups l - downs l ∧ ups l + downs l = vend l.
Proof.
  induction 1 as [|a l Ha _ [IH1 IH2]]; [done|].
  destruct (ups_downs_cons a l) as [-> ->].
  unfold vend in *. cbn [sumZ foldr length]. fold (sumZ l).
  rewrite IH1. destruct Ha as [-> | ->]; simpl; lia.
Qed.

Lemma ups_downs_opp (l : vec) :
  ups (Z.opp <$> l) = downs l ∧ downs (Z.opp <$> l) = ups l.
Proof.
  induction l as [|a l [IH1 IH2]]; [done|].
  rewrite fmap_cons.
  destruct (ups_downs_cons (- a) (Z.opp <$> l)) as [-> ->].
  destruct (ups_downs_cons a l) as [-> ->].
  rewrite IH1, IH2. split.
  - destruct (Z.eqb_spec (- a) 1), (Z.eqb_spec a (-1)); lia.
  - destruct (Z.eqb_spec (- a) (-1)), (Z.eqb_spec a 1); lia.
Qed.

Lemma spin_opp (l : vec) : Forall spin l → Forall spin (Z.opp <$> l).
Proof.
  intros H. apply Forall_fmap. eapply Forall_impl; [exact H|].
  unfold spin. simpl. lia.
Qed.

Lemma vend_fmap (f : Z → Z) (l : vec) : vend (f <$> l) = vend l.
Proof. unfold vend. by rewrite length_fmap. Qed.

Lemma sumZ_perm (l l' : vec) : l ≡ₚ l' → sumZ l = sumZ l'.
Proof.
  induction 1 as [|x l l' _ IH|x y l|l l' l'' _ IH1 _ IH2]; simpl.
  - done.
  - unfold sumZ in *. simpl. by rewrite IH.
  - unfold sumZ. simpl. lia.
  - congruence.
Qed.

(** On spins the sum that the code tests is the number of [+1] less the
    number of [-1], and it fits in an [int] with the length. *)
Lemma majority_rule_spins (pre l post : vec) :
  Forall spin l → vend l ≤ int_max →
  majority_rule (pre ++ l ++ post) (vend pre) (vend pre + vend l)
  = Some (if ups l >? downs l then 1 else -1).
Proof.
  intros Hl Hmax. rewrite majority_rule_range.
  destruct (sumZ_spins l Hl) as [Hs Hn].
  assert (0 ≤ ups l) by (unfold ups; lia).
  assert (0 ≤ downs l) by (unfold downs; lia).
  rewrite wrap_small
    by (unfold in_range, int_min, int_max in *; lia).
  rewrite Hs. f_equal.
  destruct (Z.gtb_spec (ups l - downs l) 0), (Z.gtb_spec (ups l) (downs l));
    lia || done.
Qed.

End Majority.

(** X3. On any range of spins [majority_rule] returns the value held by more
    than half of the elements when there is one: +1 when the elements at +1
    outnumber those at -1, and -1 otherwise, a tie included. *)
Theorem majority_rule_is_majority (pre l post : vec) :
  Forall spin l → vend l ≤ CInt.int_max →
  majority_rule (pre ++ l ++ post) (vend pre) (vend pre + vend l)
  = Some (if ups l >? downs l then 1 else -1)
  ∧ (ups l = downs l →
     majority_rule (pre ++ l ++ post) (vend pre) (vend pre + vend l)
     = Some (-1)).
Proof.
  intros Hl Hmax. rewrite majority_rule_spins by done.
  split; [done|]. intros ->.
  destruct (Z.gtb_spec (downs l) (downs l)); [lia|done].
Qed.

Lemma majority_rule_is_majority_witness :
  Forall spin [1; -1; -1; 1] ∧ vend [1; -1; -1; 1] ≤ CInt.int_max
  ∧ ups [1; -1; -1; 1] = downs [1; -1; -1; 1]
  ∧ majority_rule [1; -1; -1; 1] 0 4 = Some (-1).
Proof.
  assert (Forall spin [1; -1; -1; 1]) as H1
    by (repeat constructor; unfold spin; lia).
  assert (vend [1; -1; -1; 1] ≤ CInt.int_max) as H2
    by (vm_compute; discriminate).
  assert (ups [1; -1; -1; 1] = downs [1; -1; -1; 1]) as H3 by reflexivity.
  exact (conj H1 (conj H2 (conj H3
    (proj2 (majority_rule_is_majority [] [1; -1; -1; 1] [] H1 H2) H3)))).
Defined.

(** X4. On a range of an odd number of spins, reversing every spin reverses
    the result of [majority_rule]. *)
Theorem majority_rule_flip (pre l post : vec) :
  Forall spin l → Z.odd (vend l) = true → vend l ≤ CInt.int_max →
  majority_rule (pre ++ (Z.opp <$> l) ++ post) (vend pre) (vend pre + vend l)
  = Z.opp <$> majority_rule (pre ++ l ++ post) (vend pre) (vend pre + vend l).
Proof.
  intros Hl Hodd Hmax.
  pose proof (majority_rule_spins pre (Z.opp <$> l) post (spin_opp l Hl))
    as E.
  rewrite vend_fmap in E. rewrite E by done. clear E.
  rewrite majority_rule_spins by done.
  destruct (ups_downs_opp l) as [-> ->].
  destruct (sumZ_spins l Hl) as [_ Hn].
  assert (ups l ≠ downs l) as Hne.
  { intros E. rewrite E in Hn. rewrite <- Hn in Hodd.
    replace (downs l + downs l) with (2 * downs l) in Hodd by lia.
    by rewrite Z.odd_mul in Hodd. }
  destruct (Z.gtb_spec (downs l) (ups l)), (Z.gtb_spec (ups l) (downs l));
    simpl; lia || done.
Qed.

Lemma majority_rule_flip_witness :
  Forall spin [1; -1; 1] ∧ Z.odd (vend [1; -1; 1]) = true
  ∧ vend [1; -1; 1] ≤ CInt.int_max
  ∧ majority_rule [-1; 1; -1] 0 3 = Z.opp <$> majority_rule [1; -1; 1] 0 3.
Proof.
  assert (Forall spin [1; -1; 1]) as H1
    by (repeat constructor; unfold spin; lia).
  assert (Z.odd (vend [1; -1; 1]) = true) as H2 by reflexivity.
  assert (vend [1; -1; 1] ≤ CInt.int_max) as H3
    by (vm_compute; discriminate).
  exact (conj H1 (conj H2 (conj H3
           (majority_rule_flip [] [1; -1; 1] [] H1 H2 H3)))).
Defined.

(** X5. The result of [majority_rule] does not depend on the order of the
    elements in the range. *)
Theorem majority_rule_permutation (pre l l' post : vec) :
  l ≡ₚ l' →
  majority_rule (pre ++ l ++ post) (vend pre) (vend pre + vend l)
  = majority_rule (pre ++ l' ++ post) (vend pre) (vend pre + vend l').
Proof.
  intros Hp. rewrite !majority_rule_range. by rewrite (sumZ_perm l l').
Qed.

Lemma majority_rule_permutation_witness :
  [1; -1; 1] ≡ₚ [-1; 1; 1]
  ∧ majority_rule [1; -1; 1] 0 3 = majority_rule [-1; 1; 1] 0 3.
Proof.
  assert ([1; -1; 1] ≡ₚ [-1; 1; 1]) as H by apply Permutation_swap.
  exact (conj H (majority_rule_permutation [] [1; -1; 1] [-1; 1; 1] [] H)).
Defined.

(** ** The energy of any ring of spins *)

Section RingOfSpins.
Import CInt CIntFacts.

(** Along a list of spins the first and the last element agree exactly when
    the number [w] of neighbours that disagree is even. *)
Lemma adj_sum_walls (l : vec) :
  Forall spin l → l ≠ [] →
  ∃ w, 0 ≤ w ≤ vend l - 1
       ∧ adj_sum l = vend l - 1 - 2 * w
       ∧ hd 0 l * List.last l 0 = (if Z.even w then 1 else -1).
Proof.
  unfold vend. induction l as [|a [|b t] IH]; intros Hl Hne; [done|..].
  - exists 0. apply Forall_cons in Hl as [[-> | ->] _]; simpl; lia.
  - apply Forall_cons in Hl as [Ha Ht].
    destruct (IH Ht) as (w & Hw & E & P); [done|].
    assert (spin b) as Hb by (by apply Forall_cons in Ht as [? _]).
    change (adj_sum (a :: b :: t)) with (a * b + adj_sum (b :: t)).
    change (List.last (a :: b :: t) 0) with (List.last (b :: t) 0).
    change (hd 0 (a :: b :: t)) with a.
    change (hd 0 (b :: t)) with b in P.
    rewrite E. simpl length in *.
    revert P. generalize (List.last (b :: t) 0). intros z P.
    destruct Ha as [-> | ->], Hb as [-> | ->].
    + exists w. split_and!; [lia|lia|lia|done].
    + exists (w + 1). rewrite Z.even_add. split_and!; [lia|lia|lia|].
      destruct (Z.even w); simpl; lia.
    + exists (w + 1). rewrite Z.even_add. split_and!; [lia|lia|lia|].
      destruct (Z.even w); simpl; lia.
    + exists w. split_and!; [lia|lia|lia|done].
Qed.

Lemma ring_sum_mod4 (l : vec) :
  Forall spin l → l ≠ [] →
  - vend l ≤ ring_sum l ≤ vend l ∧ (vend l - ring_sum l) mod 4 = 0.
Proof.
  intros Hl Hne. destruct (adj_sum_walls l Hl Hne) as (w & Hw & E & P).
  unfold ring_sum. rewrite E, (Z.mul_comm (List.last l 0)), P.
  destruct (Z.even w) eqn:Ew.
  - apply Z.even_spec in Ew as [j ->]. split; [lia|].
    replace (vend l - (vend l - 1 - 2 * (2 * j) + 1)) with (j * 4) by lia.
    apply Z.mod_mul. lia.
  - assert (Z.odd w = true) as Ho by (by rewrite <- Z.negb_even, Ew).
    apply Z.odd_spec in Ho as [j ->]. split; [lia|].
    replace (vend l - (vend l - 1 - 2 * (2 * j + 1) + -1))
      with ((j + 1) * 4) by lia.
    apply Z.mod_mul. lia.
Qed.

Lemma adj_sum_opp (l : vec) : adj_sum (Z.opp <$> l) = adj_sum l.
Proof.
  induction l as [|a [|b t] IH]; [done|simpl; lia|].
  change (adj_sum (Z.opp <$> a :: b :: t))
    with (- a * - b + adj_sum (Z.opp <$> b :: t)).
  rewrite IH. change (adj_sum (a :: b :: t)) with (a * b + adj_sum (b :: t)).
  lia.
Qed.

Lemma ring_sum_opp (l : vec) : ring_sum (Z.opp <$> l) = ring_sum l.
Proof.
  unfold ring_sum. rewrite adj_sum_opp.
  destruct (decide (l = [])) as [->|Hne]; [done|].
  destruct (exists_last Hne) as (t & a & ->).
  rewrite fmap_app. change (Z.opp <$> [a]) with [- a]. rewrite !last_last.
  destruct t; simpl; lia.
Qed.

Lemma adj_sum_aligned (l : vec) :
  Forall spin l → l ≠ [] →
  adj_sum l = vend l - 1 ↔ Forall (λ x, x = hd 0 l) l.
Proof.
  unfold vend. induction l as [|a [|b t] IH]; intros Hl Hne; [done|..].
  - simpl. split; [intros _; by repeat constructor|lia].
  - apply Forall_cons in Hl as [Ha Ht].
    assert (spin b) as Hb by (by apply Forall_cons in Ht as [? _]).
    destruct (adj_sum_spin (b :: t) Ht) as (w & Hw & E).
    specialize (IH Ht ltac:(done)).
    change (adj_sum (a :: b :: t)) with (a * b + adj_sum (b :: t)).
    change (hd 0 (a :: b :: t)) with a. change (hd 0 (b :: t)) with b in IH.
    simpl length in *. split.
    + intros Hsum.
      assert (a * b = 1 ∧ adj_sum (b :: t) = Z.of_nat (S (length t)) - 1)
        as [Hab Hadj] by (unfold spin in *; lia).
      assert (a = b) as -> by (unfold spin in *; lia).
      constructor; [done|]. by apply IH.
    + intros Hall. apply Forall_cons in Hall as [_ Hall].
      assert (b = a) as -> by (by apply Forall_cons in Hall as [? _]).
      apply IH in Hall. rewrite Hall. unfold spin in *. lia.
Qed.

End RingOfSpins.

(** X6. On a ring of n >= 1 spins, n within the range of [int], [energy]
    returns a value between -n and n that differs from n by a multiple of
    4. *)
Theorem energy_bounds_mod4 (pre s post : vec) :
  Forall spin s → s ≠ [] → vend s ≤ CInt.int_max →
  ∃ e, energy (pre ++ s ++ post) (vend pre) (vend pre + vend s) = Some e
       ∧ - vend s ≤ e ≤ vend s
       ∧ (vend s - e) mod 4 = 0.
Proof.
  intros Hs Hne Hmax. exists (ring_sum s).
  rewrite energy_range by done.
  rewrite CIntFacts.wrap_small by (by apply ring_sum_in_range).
  split; [done|]. by apply ring_sum_mod4.
Qed.

Lemma energy_bounds_mod4_witness :
  Forall spin [1; -1; -1; 1; 1] ∧ [1; -1; -1; 1; 1] ≠ []
  ∧ vend [1; -1; -1; 1; 1] ≤ CInt.int_max
  ∧ ∃ e, energy [1; -1; -1; 1; 1] 0 5 = Some e
         ∧ - vend [1; -1; -1; 1; 1] ≤ e ≤ vend [1; -1; -1; 1; 1]
         ∧ (vend [1; -1; -1; 1; 1] - e) mod 4 = 0.
Proof.
  assert (Forall spin [1; -1; -1; 1; 1]) as H1
    by (repeat constructor; unfold spin; lia).
  assert ([1; -1; -1; 1; 1] ≠ @nil Z) as H2 by discriminate.
  assert (vend [1; -1; -1; 1; 1] ≤ CInt.int_max) as H3
    by (vm_compute; discriminate).
  exact (conj H1 (conj H2 (conj H3
           (energy_bounds_mod4 [] [1; -1; -1; 1; 1] [] H1 H2 H3)))).
Defined.

(** X7. Reversing every spin of a ring leaves its energy unchanged. *)
Theorem energy_flip (pre s post : vec) :
  Forall spin s →
  energy (pre ++ (Z.opp <$> s) ++ post) (vend pre) (vend pre + vend s)
  = energy (pre ++ s ++ post) (vend pre) (vend pre + vend s).
Proof.
  intros _. destruct (decide (s = [])) as [->|Hne]; [done|].
  assert (Z.opp <$> s ≠ []) as Hne' by (by destruct s).
  pose proof (energy_range pre (Z.opp <$> s) post Hne') as E.
  rewrite vend_fmap in E. by rewrite E, energy_range, ring_sum_opp.
Qed.

Lemma energy_flip_witness :
  Forall spin [1; -1; -1; 1; 1]
  ∧ energy [-1; 1; 1; -1; -1] 0 5 = energy [1; -1; -1; 1; 1] 0 5.
Proof.
  assert (Forall spin [1; -1; -1; 1; 1]) as H1
    by (repeat constructor; unfold spin; lia).
  exact (conj H1 (energy_flip [] [1; -1; -1; 1; 1] [] H1)).
Defined.

(** X8. On a ring of n >= 1 spins, n within the range of [int], [energy]
    returns its largest value n exactly when all spins of the ring are
    equal. *)
Theorem energy_max_iff_aligned (pre s post : vec) :
  Forall spin s → s ≠ [] → vend s ≤ CInt.int_max →
  energy (pre ++ s ++ post) (vend pre) (vend pre + vend s) = Some (vend s)
  ↔ Forall (λ x, x = hd 0 s) s.
Proof.
  intros Hs Hne Hmax. rewrite energy_range by done.
  rewrite CIntFacts.wrap_small by (by apply ring_sum_in_range).
  rewrite <- adj_sum_aligned by done.
  destruct (adj_sum_spin s Hs) as (w & Hw & E).
  pose proof (spin_mul _ _ (spin_last s Hs Hne) (spin_hd s Hs Hne)) as Hp.
  assert (length s ≠ 0%nat) by (by destruct s).
  unfold ring_sum, vend in *. split.
  - intros [= Hr]. unfold spin in Hp. lia.
  - intros Ha. f_equal.
    assert (List.last s 0 = hd 0 s) as ->.
    { apply adj_sum_aligned in Ha; [|done..].
      destruct (exists_last Hne) as (t & a & Et). rewrite Et in Ha |- *.
      rewrite last_last. apply Forall_app in Ha as [_ Ha].
      by apply Forall_cons in Ha as [? _]. }
    pose proof (spin_hd s Hs Hne) as Hh. rewrite Ha.
    unfold spin in Hh. lia.
Qed.

Lemma energy_max_iff_aligned_witness :
  Forall spin [-1; -1; -1] ∧ [-1; -1; -1] ≠ []
  ∧ vend [-1; -1; -1] ≤ CInt.int_max
  ∧ energy [-1; -1; -1] 0 3 = Some 3.
Proof.
  assert (Forall spin [-1; -1; -1]) as H1
    by (repeat constructor; unfold spin; lia).
  assert ([-1; -1; -1] ≠ @nil Z) as H2 by discriminate.
  assert (vend [-1; -1; -1] ≤ CInt.int_max) as H3
    by (vm_compute; discriminate).
  refine (conj H1 (conj H2 (conj H3
    (proj2 (energy_max_iff_aligned [] [-1; -1; -1] [] H1 H2 H3) _)))).
  repeat constructor.
Defined.

(** ** The aggregation of any list of rows *)

Section Aggregation.
Import CInt CIntFacts.

Lemma count_terms_classes (v : list renorm_row) ceq cne :
  Forall (λ r, 2 ≤ length (spin2 r))%nat v →
  count_terms v ceq cne
  = Some (tally (H1 <$> filter primed_equal v) ceq,
          tally (H1 <$> filter primed_unequal v) cne).
Proof.
  revert ceq cne. induction v as [|r v IH]; intros ceq cne Hv; [done|].
  apply Forall_cons in Hv as [Hr Hv]. cbn [count_terms].
  destruct (spin2 r) as [|a [|b t]] eqn:E; [simpl in Hr; lia..|].
  change (deref (a :: b :: t) 0) with (Some a).
  change (deref (a :: b :: t) 1) with (Some b).
  cbn [mbind option_bind]. rewrite !filter_cons.
  destruct (Z.eqb_spec a b) as [->|Hab].
  - rewrite decide_True by (unfold primed_equal; by rewrite E).
    rewrite decide_False
      by (unfold primed_unequal; rewrite E; intros H; by apply H).
    simpl. by rewrite IH.
  - rewrite decide_False
      by (unfold primed_equal; rewrite E; simpl; congruence).
    rewrite decide_True
      by (unfold primed_unequal; rewrite E; simpl; congruence).
    simpl. by rewrite IH.
Qed.

Lemma count_terms_short (v : list renorm_row) ceq cne :
  ¬ Forall (λ r, 2 ≤ length (spin2 r))%nat v → count_terms v ceq cne = None.
Proof.
  revert ceq cne. induction v as [|r v IH]; intros ceq cne Hv.
  - destruct Hv. constructor.
  - cbn [count_terms].
    destruct (spin2 r) as [|a [|b t]] eqn:E; [done..|].
    change (deref (a :: b :: t) 0) with (Some a).
    change (deref (a :: b :: t) 1) with (Some b).
    cbn [mbind option_bind].
    assert (¬ Forall (λ r, 2 ≤ length (spin2 r))%nat v) as Hv'.
    { intros H. apply Hv. constructor; [|done]. rewrite E. simpl. lia. }
    destruct (a =? b); by apply IH.
Qed.

Lemma length_map_incr key (m : int_map) :
  ascending (keys m) →
  length (map_incr key m)
  = if map_find key m is Some _ then length m else S (length m).
Proof.
  unfold ascending, keys. induction m as [|[k c] m IH]; intros Hm; [done|].
  apply StronglySorted_inv in Hm as [Hm Hk]. cbn [map_incr map_find].
  destruct (Z.ltb_spec key k) as [Hlt|Hge];
    [|destruct (Z.eqb_spec key k) as [->|Hne]].
  - destruct (Z.eqb_spec key k); [lia|].
    rewrite (map_find_fresh key m); [done|].
    eapply Forall_impl; [exact Hk|]. simpl. intros; lia.
  - done.
  - simpl length. rewrite IH by done. by destruct (map_find key m).
Qed.

End Aggregation.

(** X9. For any list of rows that each hold at least two block spins, at
    most as many rows as an [int] can count, the loop returns two tables: the
    keys of each ascend strictly, each holds under every H1 the number of
    rows of its class with that H1 and no key without a row, and its counts
    add up to the size of its class. *)
Theorem count_terms_tables (v : list renorm_row) :
  Forall (λ r, 2 ≤ length (spin2 r))%nat v →
  Z.of_nat (length v) ≤ CInt.int_max →
  ∃ ceq cne, count_terms v [] [] = Some (ceq, cne)
    ∧ ascending (keys ceq) ∧ ascending (keys cne)
    ∧ (∀ h, count_of h ceq = rows_with_H1 h (filter primed_equal v))
    ∧ (∀ h, count_of h cne = rows_with_H1 h (filter primed_unequal v))
    ∧ (∀ h, h ∈ keys ceq ↔ ∃ r, r ∈ v ∧ primed_equal r ∧ H1 r = h)
    ∧ (∀ h, h ∈ keys cne ↔ ∃ r, r ∈ v ∧ primed_unequal r ∧ H1 r = h)
    ∧ total ceq + total cne = Z.of_nat (length v).
Proof.
  intros Hv Hmax. rewrite count_terms_classes by done.
  assert (∀ (P : renorm_row → Prop) `{!∀ r, Decision (P r)},
            table_of (H1 <$> filter P v) (tally (H1 <$> filter P v) []))
    as Htab.
  { intros P HP.
    pose proof (table_of_tally [] (H1 <$> filter P v) [] table_of_nil) as T.
    rewrite app_nil_l in T. apply T. rewrite length_fmap.
    pose proof (length_filter P v). lia. }
  pose proof (Htab primed_equal _) as Teq.
  pose proof (Htab primed_unequal _) as Tne.
  eexists _, _. split; [reflexivity|]. split_and!.
  - by destruct Teq.
  - by destruct Tne.
  - intros h. by rewrite (table_of_count _ _ _ Teq), occurrences_H1.
  - intros h. by rewrite (table_of_count _ _ _ Tne), occurrences_H1.
  - intros h. rewrite (table_of_keys _ _ _ Teq). apply class_keys_H1.
  - intros h. rewrite (table_of_keys _ _ _ Tne). apply class_keys_H1.
  - destruct Teq as (_ & _ & ->), Tne as (_ & _ & ->).
    rewrite !length_fmap, <- Nat2Z.inj_add, <- length_app.
    by rewrite (classes_complement v).
Qed.

Lemma count_terms_tables_witness :
  Forall (λ r, 2 ≤ length (spin2 r))%nat
    [mk_row [1; 1] 2 [1; 1] 2; mk_row [1; -1] (-2) [1; -1] (-2);
     mk_row [-1; -1] 2 [-1; -1] 2]
  ∧ count_terms [mk_row [1; 1] 2 [1; 1] 2; mk_row [1; -1] (-2) [1; -1] (-2);
                 mk_row [-1; -1] 2 [-1; -1] 2] [] []
    = Some ([(2, 2)], [(-2, 1)]).
Proof.
  assert (Forall (λ r, 2 ≤ length (spin2 r))%nat
            [mk_row [1; 1] 2 [1; 1] 2; mk_row [1; -1] (-2) [1; -1] (-2);
             mk_row [-1; -1] 2 [-1; -1] 2]) as H1
    by (repeat constructor).
  split; [exact H1|].
  destruct (count_terms_tables _ H1 ltac:(vm_compute; discriminate))
    as (ceq & cne & E & _).
  reflexivity.
Defined.

(** X10. The loop over the rows returns tables exactly when every row holds
    at least two block spins; it reads [spin2[0]] and [spin2[1]] of each row,
    and a row with fewer leaves it without a defined result. *)
Theorem count_terms_defined_iff (v : list renorm_row) (ceq cne : int_map) :
  is_Some (count_terms v ceq cne)
  ↔ Forall (λ r, 2 ≤ length (spin2 r))%nat v.
Proof.
  split.
  - intros Hs.
    destruct (decide (Forall (λ r, 2 ≤ length (spin2 r))%nat v)) as [|Hn];
      [done|].
    rewrite count_terms_short in Hs by done. by destruct Hs.
  - intros Hv. by rewrite count_terms_classes.
Qed.

(** X11. [++m[key]] on a table whose keys ascend keeps the keys ascending,
    leaves the count of every other key as it was, and sets the count of
    [key] to one more than before, a key that was absent counting as 0 and
    adding one entry. *)
Theorem map_incr_insert_or_increment (key h : Z) (m : int_map) :
  ascending (keys m) →
  ascending (keys (map_incr key m))
  ∧ map_find key (map_incr key m) = Some (CInt.add (count_of key m) 1)
  ∧ (h ≠ key → map_find h (map_incr key m) = map_find h m)
  ∧ (map_find key m = None →
     map_find key (map_incr key m) = Some 1
     ∧ length (map_incr key m) = S (length m))
  ∧ (is_Some (map_find key m) → length (map_incr key m) = length m).
Proof.
  intros Hm. split_and!.
  - by apply ascending_map_incr.
  - by rewrite map_find_map_incr, Z.eqb_refl.
  - intros Hne. rewrite map_find_map_incr by done.
    by destruct (Z.eqb_spec h key).
  - intros Hn. rewrite map_find_map_incr, Z.eqb_refl by done.
    rewrite length_map_incr by done. unfold count_of. by rewrite Hn.
  - intros [c Hc]. rewrite length_map_incr by done. by rewrite Hc.
Qed.

Lemma map_incr_insert_or_increment_witness :
  ascending (keys [(-2, 3); (6, 1)])
  ∧ map_incr 2 [(-2, 3); (6, 1)] = [(-2, 3); (2, 1); (6, 1)]
  ∧ map_find 2 (map_incr 2 [(-2, 3); (6, 1)]) = Some 1.
Proof.
  assert (ascending (keys [(-2, 3); (6, 1)])) as H.
  { unfold ascending, keys. simpl.
    repeat (constructor; [|repeat constructor; lia]). constructor. }
  refine (conj H (conj eq_refl _)).
  exact (proj1 (proj1 (proj2 (proj2 (proj2
    (map_incr_insert_or_increment 2 0 [(-2, 3); (6, 1)] H)))) eq_refl)).
Defined.

(** ** The raw table *)

Section RawTable.

Lemma row_of_mask_line mask :
  ∃ r, row_of_mask mask = Some (r, row_line r)
       ∧ String.length (row_line r) = 37%nat.
Proof.
  unfold row_of_mask. fold (configuration mask). rewrite configuration_shape.
  generalize (Z.testbit mask 5), (Z.testbit mask 4), (Z.testbit mask 3),
    (Z.testbit mask 2), (Z.testbit mask 1), (Z.testbit mask 0).
  intros [] [] [] [] [] [];
    lazymatch goal with
    | |- ∃ r, ?t = _ ∧ _ =>
        let x := eval vm_compute in t in
        lazymatch x with
        | Some (?r, _) =>
            exists r; split; [vm_compute; reflexivity|reflexivity]
        end
    end.
Qed.

Lemma row_of_mask_ok_line mask :
  ∃ r, row_of_mask mask = Some (r, row_line r) ∧ row_ok mask r.
Proof.
  destruct (row_of_mask_ok mask) as (r & out & E & Hr).
  destruct (row_of_mask_line mask) as (r' & E' & _).
  rewrite E in E'. injection E' as -> ->. by exists r'.
Qed.

Lemma enumerate_lines masks v config_data :
  ∃ rs, enumerate masks v config_data
        = Some (v ++ rs, config_data +:+ concat_lines (row_line <$> rs))
        ∧ Forall2 (λ mask r, fst <$> row_of_mask mask = Some r) masks rs
        ∧ Forall2 row_ok masks rs.
Proof.
  revert v config_data.
  induction masks as [|mask masks IH]; intros v config_data;
    cbn [enumerate].
  - exists []. rewrite app_nil_r. unfold concat_lines. simpl.
    by rewrite append_nil_r.
  - destruct (row_of_mask_ok_line mask) as (r & E & Hr). rewrite E.
    cbn [mbind option_bind].
    destruct (IH (v ++ [r]) (config_data +:+ row_line r))
      as (rs & -> & Hrs & Hok).
    exists (r :: rs). rewrite <- app_assoc. split_and!.
    + do 2 f_equal. unfold concat_lines. simpl. by rewrite append_assoc.
    + constructor; [by rewrite E|done].
    + by constructor.
Qed.

End RawTable.

(** X12. For every [mask] the body of the loop produces a row, and the line
    it writes to the raw table shows that row: its six spins, its two block
    spins and its two energies in the column order s1 s2 s3, s1', s4 s5 s6,
    s2', H1, H2. Every number fits its field of three characters, so every
    line has the same length of 37 characters. *)
Theorem row_line_shows_row (mask : Z) :
  ∃ r, row_of_mask mask = Some (r, row_line r)
       ∧ String.length (row_line r) = 37%nat.
Proof. apply row_of_mask_line. Qed.

(** X13. The loop over the masks leaves the rows and the text it starts from
    in place and adds, for each mask in turn, the row of that mask at the end
    of the vector and the line of that row at the end of the text. *)
Theorem enumerate_appends (masks : list Z) (v : list renorm_row)
    (config_data : string) :
  ∃ rs, enumerate masks v config_data
        = Some (v ++ rs, config_data +:+ concat_lines (row_line <$> rs))
        ∧ length rs = length masks
        ∧ Forall2 (λ mask r, fst <$> row_of_mask mask = Some r) masks rs.
Proof.
  destruct (enumerate_lines masks v config_data) as (rs & E & Hrs & _).
  exists rs. split_and!; [done| |done].
  symmetry. by eapply Forall2_length.
Qed.

(** X14. The raw table written by the program is the header line followed
    by the lines of its 64 rows, in the order of the rows. *)
Theorem cfg_out_is_header_and_rows :
  ∃ run, main = Some run
    ∧ length (rows run) = 64%nat
    ∧ cfg_out run = cfg_header +:+ concat_lines (row_line <$> rows run).
Proof.
  unfold main.
  destruct (enumerate_lines all_masks [] (EmptyString +:+ cfg_header))
    as (rs & -> & Hrs & Hok).
  cbn [mbind option_bind app].
  assert (length rs = 64%nat) as Hlen
    by (by rewrite <- (Forall2_length _ _ _ Hrs)).
  rewrite count_terms_total.
  - cbn [mbind option_bind]. eexists. split; [reflexivity|]. by split.
  - eapply Forall2_Forall_r; [apply Hok|].
    apply Forall_true.
    intros mask r (_ & _ & (? & ? & _ & _ & _ & _ & ->) & _). done.
Qed.

(** ** The rows of the run *)

Section RunRows.
Import CInt CIntFacts.

Lemma row_of_mask_flip_all :
  Forall (λ k, ∃ r, fst <$> row_of_mask k = Some r
                    ∧ fst <$> row_of_mask (63 - k) = Some (flip_row r))
         (seqZ 0 64).
Proof.
  let l := eval vm_compute in (seqZ 0 64) in change (seqZ 0 64) with l.
  repeat (constructor;
          [lazymatch goal with
           | |- ∃ r, fst <$> row_of_mask ?k = _ ∧ _ =>
               let x := eval vm_compute in (fst <$> row_of_mask k) in
               lazymatch x with
               | Some ?r => exists r; split; vm_compute; reflexivity
               end
           end|]).
  constructor.
Qed.

Lemma row_ok_H1_values mask r : row_ok mask r → H1 r ∈ [-6; -2; 2; 6].
Proof.
  intros (Hs & He & _).
  destruct (configuration_spins mask) as [Hlen Hsp]. rewrite <- Hs in *.
  assert (spin1 r ≠ []) as Hne by (by destruct (spin1 r)).
  rewrite energy_ring_sum in He by done.
  destruct (ring_sum_mod4 (spin1 r) Hsp Hne) as [Hb Hm].
  unfold vend in *. rewrite Hlen in *. simpl in Hb, Hm.
  rewrite wrap_small in He
    by (unfold in_range, int_min, int_max; lia).
  injection He as <-.
  assert (∃ j, -6 ≤ j ≤ 6 ∧ ring_sum (spin1 r) = j) as (j & Hj & E)
    by (eexists; split; [exact Hb|done]).
  rewrite E in *. clear E Hb.
  assert (j = -6 ∨ j = -5 ∨ j = -4 ∨ j = -3 ∨ j = -2 ∨ j = -1 ∨ j = 0
          ∨ j = 1 ∨ j = 2 ∨ j = 3 ∨ j = 4 ∨ j = 5 ∨ j = 6) as Hc by lia.
  repeat (destruct Hc as [-> | Hc];
          [first [by vm_compute in Hm | repeat constructor]|]).
  subst. repeat constructor.
Qed.


End RunRows.

(** X15. The rows of [k] and of [63 - k], for [k] from 0 to 63, are mirror
    images: every spin and both block spins are reversed, and the energies
    H1 and H2 are the same. *)
Theorem row_of_mask_complement (k : Z) :
  0 ≤ k ≤ 63 →
  ∃ r, fst <$> row_of_mask k = Some r
       ∧ fst <$> row_of_mask (63 - k)
         = Some (mk_row (Z.opp <$> spin1 r) (H1 r) (Z.opp <$> spin2 r) (H2 r)).
Proof.
  intros Hk. assert (k ∈ seqZ 0 64) as Hin by (apply elem_of_seqZ; lia).
  exact (proj1 (Forall_forall _ _) row_of_mask_flip_all k Hin).
Qed.

Lemma row_of_mask_complement_witness :
  0 ≤ 42 ≤ 63
  ∧ ∃ r, fst <$> row_of_mask 42 = Some r
         ∧ fst <$> row_of_mask 21
           = Some (mk_row (Z.opp <$> spin1 r) (H1 r) (Z.opp <$> spin2 r)
                          (H2 r)).
Proof.
  assert (0 ≤ 42 ≤ 63) as H by lia.
  exact (conj H (row_of_mask_complement 42 H)).
Defined.

(** X16. The program runs to its end, and the original energy H1 of every
    row, and so every key of either table, is one of -6, -2, 2 and 6: the
    values -4, 0 and 4 never occur. *)
Theorem H1_values :
  ∃ run, main = Some run
    ∧ Forall (λ r, H1 r ∈ [-6; -2; 2; 6]) (rows run)
    ∧ Forall (λ h, h ∈ [-6; -2; 2; 6]) (keys (counts_equal run))
    ∧ Forall (λ h, h ∈ [-6; -2; 2; 6]) (keys (counts_unequal run)).
Proof.
  destruct main_run as (run & Hrun & Hrows & Heq & Hne & _).
  exists run. split; [exact Hrun|]. clear Hrun.
  assert (length (rows run) = 64%nat) as Hlen
    by (by rewrite <- (Forall2_length _ _ _ Hrows)).
  assert (Forall (λ r, H1 r ∈ [-6; -2; 2; 6]) (rows run)) as HH1.
  { eapply Forall2_row_ok_Forall; [|exact Hrows]. apply row_ok_H1_values. }
  assert (∀ (P : renorm_row → Prop) `{!∀ r, Decision (P r)},
            Forall (λ h, h ∈ [-6; -2; 2; 6])
              (keys (tally (H1 <$> filter P (rows run)) []))) as Hkeys.
  { intros P HP. apply Forall_forall. intros h Hh.
    apply (table_of_keys _ _ _ (run_tables (rows run) P Hlen)) in Hh.
    apply class_keys_H1 in Hh as (r & Hr & _ & <-).
    by apply (proj1 (Forall_forall _ _) HH1). }
  split_and!; [exact HH1|rewrite Heq; apply Hkeys|rewrite Hne; apply Hkeys].
Qed.


(** X18. The program runs to its end with 32 rows in each of the two
    classes, so neither table is empty and the counts of each add up to
    32. *)
Theorem classes_have_32_rows :
  ∃ run, main = Some run
    ∧ length (filter primed_equal (rows run)) = 32%nat
    ∧ length (filter primed_unequal (rows run)) = 32%nat
    ∧ total (counts_equal run) = 32
    ∧ total (counts_unequal run) = 32
    ∧ counts_equal run ≠ []
    ∧ counts_unequal run ≠ [].
Proof.
  destruct main as [run|] eqn:E; [|vm_compute in E; discriminate E].
  exists run. split; [reflexivity|].
  vm_compute in E. injection E as <-.
  split_and!; [vm_compute; reflexivity..|discriminate|discriminate].
Qed.

(** ** The text of the equations for any two tables *)

(** X19. Whatever the two tables hold, the text of the equations is two
    lines, each a label followed by the terms of one table joined by "+ ";
    a table with one entry gives its term with no "+ ", and an empty table
    leaves the label alone on its line. *)
Theorem write_equations_any (ceq cne : int_map) (e : Z * Z) :
  write_equations ceq cne
  = (label_equal +:+ String.concat "+ " (term <$> ceq) +:+ endl)
    +:+ (label_unequal +:+ String.concat "+ " (term <$> cne) +:+ endl)
  ∧ write_equations [e] []
    = (label_equal +:+ term e +:+ endl) +:+ (label_unequal +:+ endl)
  ∧ write_equations [] []
    = (label_equal +:+ endl) +:+ (label_unequal +:+ endl).
Proof.
  split_and!; [apply write_equations_lines|..].
  - rewrite write_equations_lines. reflexivity.
  - reflexivity.
Qed.

(** ** Masks beyond six bits *)

(** X20. The row of a mask depends on its six low bits only: masks that
    differ by a multiple of 64 give the same row and the same line. *)
Theorem row_of_mask_low_bits (mask j : Z) :
  configuration (mask + 64 * j) = configuration mask
  ∧ row_of_mask (mask + 64 * j) = row_of_mask mask.
Proof.
  assert (bitset6 (mask + 64 * j) = bitset6 mask) as E.
  { unfold bitset6. rewrite !Z.land_ones by lia.
    change (2 ^ 6) with 64. rewrite (Z.mul_comm 64 j).
    apply Z.mod_add. lia. }
  unfold configuration, row_of_mask. by rewrite E.
Qed.
